(** * GameOfLife-Infinite-Demo: the chunked grid and the generation step

    A shallow embedding of [script.js]: the class [ChunkManager] (a sparse
    grid of fixed-size chunks kept in a [Map] keyed by the string
    ["cx,cy"]) and the class [GameOfLife]: the simulation
    ([applyRule], [clear], [computeNextGen]), the editing of the grid
    (the pointer handlers, [loadPattern], [randomize]), the rule
    controls, the cells [draw] fills, and [start], [pause] and [loop].

    Modelling choices.
    - A JavaScript number that holds a coordinate, a chunk size, a
      neighbour count or a counter is an integer of [Z]; floating point
      and the 2^53 limit are outside the model.
    - A [Uint8Array] is a [list Z]; a store converts the value modulo 256,
      a store out of range is ignored, a load out of range is [undefined].
    - The [Map] of chunks is a [gmap string (list Z)], the [Set]s are
      [gset]s: iteration follows the order of [map_to_list] and
      [elements] rather than insertion order.
    - Canvas, camera, DOM and timing code is left out: where a handler
      reads a value computed there (the cell under the pointer, the
      bounds of the screen, a random draw, whether a frame is due), the
      value is an argument of its model.

    The file gives the program first, then the notions its properties are
    stated with, then the lemmas, and last the properties themselves. *)

From Stdlib Require Import ZArith Lia Ascii String Decimal DecimalString DecimalZ.
From stdpp Require Import gmap strings list fin_maps.

Local Open Scope Z_scope.

(** * The program *)

(** ** Chunk keys: the template string and its parsing *)

Module Key.

(** [`${n}`] for an integer [n]: its decimal digits, with a leading minus
    sign when negative. *)
Definition numberToString (n : Z) : string :=
  NilZero.string_of_int (Z.to_int n).

(** [Number(s)] on decimal integer literals. [None] stands for every other
    string: JavaScript yields [NaN] or reads a literal form the model does
    not cover. *)
Definition Number (s : string) : option Z :=
  Z.of_int <$> NilZero.int_of_string s.

(** [s.split(',')] *)
Fixpoint split (s : string) : list string :=
  match s with
  | EmptyString => [EmptyString]
  | String c s' =>
      if Ascii.eqb c "," then EmptyString :: split s'
      else match split s' with
           | [] => [String c EmptyString]
           | p :: ps => String c p :: ps
           end
  end.

(** [const [cx, cy] = key.split(',').map(Number)] *)
Definition parse (key : string) : option (Z * Z) :=
  match split key with
  | a :: b :: _ =>
      match Number a, Number b with
      | Some cx, Some cy => Some (cx, cy)
      | _, _ => None
      end
  | _ => None
  end.

End Key.

(** ** ChunkManager *)

(** [chunks] maps ["cx,cy"] to the chunk's [Uint8Array]. The field
    [keyCache] is never read or written after construction and is left
    out. *)
Record ChunkManager := mkChunkManager {
  chunkSize : Z;
  chunks : gmap string (list Z)
}.

(** The value of an element load [chunk[i]]. *)
Inductive value :=
| undefined
| number (n : Z).

(** Truthiness, as tested by [if (v)]. *)
Definition truthy (v : value) : bool :=
  match v with
  | undefined => false
  | number n => negb (n =? 0)
  end.

(** [v === 1] *)
Definition is_one (v : value) : bool :=
  match v with
  | undefined => false
  | number n => n =? 1
  end.

Module Uint8Array.

(** [new Uint8Array(n)] *)
Definition make (n : Z) : list Z := replicate (Z.to_nat n) 0.

(** [chunk[i]] *)
Definition load (chunk : list Z) (i : Z) : value :=
  if i <? 0 then undefined
  else match chunk !! Z.to_nat i with
       | Some v => number v
       | None => undefined
       end.

(** [chunk[i] = v] *)
Definition store (chunk : list Z) (i v : Z) : list Z :=
  if i <? 0 then chunk else <[Z.to_nat i := v mod 256]> chunk.

End Uint8Array.

(** Methods run in a state monad over the receiver. *)
Definition M (A : Type) : Type := ChunkManager → A * ChunkManager.

#[global] Instance M_ret : MRet M := λ A a cm, (a, cm).

#[global] Instance M_bind : MBind M := λ A B k m cm,
  let '(a, cm') := m cm in k a cm'.

(** [this.chunkSize] *)
Definition this_chunkSize : M Z := λ cm, (chunkSize cm, cm).

(** [this.chunks.get(key)] *)
Definition chunks_get (key : string) : M (option (list Z)) :=
  λ cm, (chunks cm !! key, cm).

(** [this.chunks.set(key, chunk)] *)
Definition chunks_set (key : string) (chunk : list Z) : M unit :=
  λ cm, (tt, mkChunkManager (chunkSize cm) (<[key := chunk]> (chunks cm))).

(** [this.chunks.clear()] *)
Definition chunks_clear : M unit :=
  λ cm, (tt, mkChunkManager (chunkSize cm) ∅).

(** An element store through a reference to a stored chunk. An array is
    held by the map only, under one key, so the key serves as the
    reference. *)
Definition chunk_store (key : string) (i v : Z) : M unit :=
  λ cm, (tt, mkChunkManager (chunkSize cm)
               (alter (λ chunk, Uint8Array.store chunk i v) key (chunks cm))).

(** [new ChunkManager(chunkSize)] *)
Definition newChunkManager (size : Z) : ChunkManager :=
  mkChunkManager size ∅.

Definition getChunkKey (cx cy : Z) : string :=
  Key.numberToString cx +:+ "," +:+ Key.numberToString cy.

Definition getChunk (cx cy : Z) : M (option (list Z)) :=
  chunks_get (getChunkKey cx cy).

(** Returns the reference (key) of the chunk, created when absent. *)
Definition getOrCreateChunk (cx cy : Z) : M string :=
  let key := getChunkKey cx cy in
  chunk ← chunks_get key;
  match chunk with
  | Some _ => mret key
  | None =>
      size ← this_chunkSize;
      chunks_set key (Uint8Array.make (size * size));;
      mret key
  end.

(** [((x % size) + size) % size], with JavaScript's truncating [%]. *)
Definition localOffset (x size : Z) : Z :=
  Z.rem (Z.rem x size + size) size.

(** [Math.floor(x / size)] *)
Definition chunkCoord (x size : Z) : Z := x / size.

Definition setCell (x y state : Z) : M unit :=
  size ← this_chunkSize;
  let cx := chunkCoord x size in
  let cy := chunkCoord y size in
  let lx := localOffset x size in
  let ly := localOffset y size in
  chunk ← getOrCreateChunk cx cy;
  chunk_store chunk (ly * size + lx) state.

Definition getCell (x y : Z) : M value :=
  size ← this_chunkSize;
  let cx := chunkCoord x size in
  let cy := chunkCoord y size in
  chunk ← chunks_get (getChunkKey cx cy);
  match chunk with
  | None => mret (number 0)
  | Some chunk =>
      let lx := localOffset x size in
      let ly := localOffset y size in
      mret (Uint8Array.load chunk (ly * size + lx))
  end.

Definition clear : M unit := chunks_clear.

(** The grid after [cm.setCell(x, y, state)], and the value of
    [cm.getCell(x, y)]. *)
Definition set (cm : ChunkManager) (x y state : Z) : ChunkManager :=
  snd (setCell x y state cm).

Definition get (cm : ChunkManager) (x y : Z) : value :=
  fst (getCell x y cm).

(** ** GameOfLife: the simulation state *)

(** A rule object [{ b: [...], s: [...] }]. *)
Record Rule := mkRule { b : list Z; s : list Z }.

(** The simulation fields of the class. [gameChunkSize] is its field
    [chunkSize], renamed apart from the one of [ChunkManager]. *)
Record GameOfLife := mkGame {
  gameChunkSize : Z;
  grid : ChunkManager;
  bornRules : gset Z;
  surviveRules : gset Z;
  generation : Z;
  population : Z
}.

(** The simulation fields as the constructor sets them. *)
Definition newGame : GameOfLife :=
  mkGame 32 (newChunkManager 32) {[3]} {[2; 3]} 0 0.

(** [this.bornRules.clear(); rule.b.forEach(n => this.bornRules.add(n))],
    and the same for [surviveRules]. *)
Definition applyRule (rule : Rule) (g : GameOfLife) : GameOfLife :=
  let born := foldl (λ acc n, {[n]} ∪ acc) ∅ (b rule) in
  let survive := foldl (λ acc n, {[n]} ∪ acc) ∅ (s rule) in
  mkGame (gameChunkSize g) (grid g) born survive (generation g) (population g).

(** [GameOfLife.clear], without the drawing and the pause. *)
Definition clearGame (g : GameOfLife) : GameOfLife :=
  mkGame (gameChunkSize g) (snd (clear (grid g)))
         (bornRules g) (surviveRules g) 0 0.

(** The nine keys added for a stored chunk [(cx, cy)]. *)
Definition offsets3 : list Z := [-1; 0; 1].

Definition addSelfAndNeighbors (cx cy : Z) (acc : gset string) : gset string :=
  foldl (λ acc dy,
    foldl (λ acc dx, {[getChunkKey (cx + dx) (cy + dy)]} ∪ acc) acc offsets3)
    acc offsets3.

(** One round of the first loop of [computeNextGen], for the entry
    [[key, chunk]]. [None] when the key does not parse. *)
Definition collectStep (acc : option (gset string)) (entry : string * list Z)
    : option (gset string) :=
  acc ← acc;
  '(cx, cy) ← Key.parse entry.1;
  Some (addSelfAndNeighbors cx cy acc).

(** The first loop: the set [chunksToCheck]. *)
Definition chunksToCheck (cm : ChunkManager) : option (gset string) :=
  foldl collectStep (Some ∅) (map_to_list (chunks cm)).

(** The eight neighbour offsets [(dx, dy)] in loop order. *)
Definition neighborOffsets : list (Z * Z) :=
  dy ← offsets3; dx ← offsets3;
  if (dx =? 0) && (dy =? 0) then [] else [(dx, dy)].

Definition countNeighbors (cm : ChunkManager) (gx gy : Z) : Z :=
  foldl (λ neighbors '(dx, dy),
    if truthy (get cm (gx + dx) (gy + dy)) then neighbors + 1 else neighbors)
    0 neighborOffsets.

Definition nextState (g : GameOfLife) (gx gy : Z) : Z :=
  let neighbors := countNeighbors (grid g) gx gy in
  let state := get (grid g) gx gy in
  if is_one state then
    if bool_decide (neighbors ∈ surviveRules g) then 1 else 0
  else
    if bool_decide (neighbors ∈ bornRules g) then 1 else 0.

(** Body of the two inner loops for one cell; the accumulator is
    [(nextGrid, newPop)]. The flag [chunkHasLife] is never read and is
    left out. *)
Definition stepCell (g : GameOfLife) (gx gy : Z)
    (acc : ChunkManager * Z) : ChunkManager * Z :=
  if nextState g gx gy =? 0 then acc
  else (set acc.1 gx gy 1, acc.2 + 1).

Definition stepChunk (g : GameOfLife) (cx cy : Z)
    (acc : ChunkManager * Z) : ChunkManager * Z :=
  let chunkBaseX := cx * gameChunkSize g in
  let chunkBaseY := cy * gameChunkSize g in
  foldl (λ acc ly,
    foldl (λ acc lx, stepCell g (chunkBaseX + lx) (chunkBaseY + ly) acc)
      acc (seqZ 0 (gameChunkSize g)))
    acc (seqZ 0 (gameChunkSize g)).

(** Second loop: every key of [chunksToCheck] is parsed again. *)
Definition processStep (g : GameOfLife) (acc : option (ChunkManager * Z))
    (key : string) : option (ChunkManager * Z) :=
  acc ← acc;
  '(cx, cy) ← Key.parse key;
  Some (stepChunk g cx cy acc).

Definition processChunks (g : GameOfLife) (keys : list string)
    (acc : ChunkManager * Z) : option (ChunkManager * Z) :=
  foldl (processStep g) (Some acc) keys.

(** [computeNextGen]. [None] only when a stored key fails to parse, which
    no key rendered by [getChunkKey] does. *)
Definition computeNextGen (g : GameOfLife) : option GameOfLife :=
  let nextGrid := newChunkManager (gameChunkSize g) in
  toCheck ← chunksToCheck (grid g);
  '(nextGrid, newPop) ← processChunks g (elements toCheck) (nextGrid, 0);
  Some (mkGame (gameChunkSize g) nextGrid (bornRules g) (surviveRules g)
               (generation g + 1) newPop).

(** [n] calls to [computeNextGen]. *)
Fixpoint advance (n : nat) (g : GameOfLife) : option GameOfLife :=
  match n with
  | O => Some g
  | S n => g' ← computeNextGen g; advance n g'
  end.

(** ** The rule presets *)

(** The table [RULES] of the rule file. *)
Definition RULES : list (string * Rule) :=
  [("Conway's Life", mkRule [3] [2; 3]);
   ("HighLife", mkRule [3; 6] [2; 3]);
   ("Seeds", mkRule [2] []);
   ("Day & Night", mkRule [3; 6; 7; 8] [3; 4; 6; 7; 8]);
   ("Life without Death", mkRule [3] [0; 1; 2; 3; 4; 5; 6; 7; 8]);
   ("Morley", mkRule [3; 6; 8] [2; 4; 5]);
   ("Anneal", mkRule [4; 6; 7; 8] [3; 5; 6; 7; 8]);
   ("Diamoeba", mkRule [3; 5; 6; 7; 8] [5; 6; 7; 8])].

(** ** GameOfLife: editing, rule controls, drawing, the loop *)

(** The engine with the fields the handlers below use. The camera (zoom,
    offsets, last mouse position) is floating point and left out, with the
    canvas and the DOM. *)
Record App := mkApp {
  game : GameOfLife;
  isRunning : bool;
  isDragging : bool;
  isDrawing : bool;
  drawState : Z
}.

(** The fields as the constructor sets them, before [init]. *)
Definition newApp : App := mkApp newGame false false false 1.

(** [this.grid = cm] inside the engine. *)
Definition withGrid (cm : ChunkManager) (g : GameOfLife) : GameOfLife :=
  mkGame (gameChunkSize g) cm (bornRules g) (surviveRules g)
         (generation g) (population g).

Definition withGame (g : GameOfLife) (a : App) : App :=
  mkApp g (isRunning a) (isDragging a) (isDrawing a) (drawState a).

(** A mouse event or a touch, as the handlers read it: [button] is
    [e.button] ([None] for a touch, which has none) and [cell] is the
    value of [this.screenToGrid(e.clientX - rect.left, e.clientY -
    rect.top)], computed in floating point from the camera. *)
Record PointerEvent := mkPointer {
  button : option Z;
  cell : Z * Z
}.

(** [v !== n] for a number [n]. *)
Definition differs (v : value) (n : Z) : bool :=
  match v with
  | undefined => true
  | number m => negb (m =? n)
  end.

Definition handleMouseDown (e : PointerEvent) (a : App) : App :=
  if bool_decide (button e = Some 1 ∨ button e = Some 2) then
    mkApp (game a) (isRunning a) true (isDrawing a) (drawState a)
  else
    let '(x, y) := cell e in
    let state := if truthy (get (grid (game a)) x y) then 0 else 1 in
    mkApp (withGrid (set (grid (game a)) x y state) (game a))
          (isRunning a) (isDragging a) true state.

Definition handleMouseMove (e : PointerEvent) (a : App) : App :=
  if isDragging a then a
  else if isDrawing a then
    let '(x, y) := cell e in
    if differs (get (grid (game a)) x y) (drawState a) then
      withGame (withGrid (set (grid (game a)) x y (drawState a)) (game a)) a
    else a
  else a.

Definition handleMouseUp (a : App) : App :=
  mkApp (game a) (isRunning a) false false (drawState a).

(** The rows of a pattern with their indices, as the index loops of
    [loadPattern] read them. *)
Definition indexed {A} (l : list A) : list (Z * A) :=
  imap (λ i x, (Z.of_nat i, x)) l.

(** [loadPattern(pattern)] on the grid; [center] is the value of
    [this.screenToGrid(rect.width / 2, rect.height / 2)]. [None] is the
    [TypeError] of [pattern[0].length] on an empty pattern. *)
Definition loadPattern (center : Z * Z) (pattern : list (list Z))
    (cm : ChunkManager) : option ChunkManager :=
  match pattern with
  | [] => None
  | row0 :: _ =>
      let startX := center.1 - Z.of_nat (length row0) / 2 in
      let startY := center.2 - Z.of_nat (length pattern) / 2 in
      Some (foldl (λ cm '(py, row),
              foldl (λ cm '(px, v),
                if v =? 0 then cm else set cm (startX + px) (startY + py) 1)
                cm (indexed row))
              cm (indexed pattern))
  end.

(** [GameOfLife.clear]: the grid is cleared, the counters are reset and a
    running simulation is paused. *)
Definition clearApp (a : App) : App :=
  mkApp (clearGame (game a)) false (isDragging a) (isDrawing a) (drawState a).

(** [for (let v = lo; v <= hi; v++)] *)
Definition fromTo (lo hi : Z) : list Z := seqZ lo (hi - lo + 1).

(** [randomize()]. [startGrid] and [endGrid] are the values of
    [this.screenToGrid(0, 0)] and of [this.screenToGrid(width, height)];
    [chosen x y] is the outcome of [Math.random() < density] when the
    loops are at the cell [(x, y)], which they visit once. *)
Definition randomize (chosen : Z → Z → bool) (startGrid endGrid : Z * Z)
    (a : App) : App :=
  let a := clearApp a in
  let cm :=
    foldl (λ cm y,
      foldl (λ cm x, if chosen x y then set cm x y 1 else cm)
        cm (fromTo (startGrid.1 - 1) (endGrid.1 + 1)))
      (grid (game a)) (fromTo (startGrid.2 - 1) (endGrid.2 + 1)) in
  withGame (withGrid cm (game a)) a.

(** The handler of a born or survive checkbox:
    [if (checked) rules.add(val); else rules.delete(val)]. *)
Definition onRuleChange (rules : gset Z) (val : Z) (checked : bool) : gset Z :=
  if checked then {[val]} ∪ rules else rules ∖ {[val]}.

Definition onBornChange (val : Z) (checked : bool) (g : GameOfLife) : GameOfLife :=
  mkGame (gameChunkSize g) (grid g) (onRuleChange (bornRules g) val checked)
         (surviveRules g) (generation g) (population g).

Definition onSurviveChange (val : Z) (checked : bool) (g : GameOfLife) : GameOfLife :=
  mkGame (gameChunkSize g) (grid g) (bornRules g)
         (onRuleChange (surviveRules g) val checked)
         (generation g) (population g).

(** The values the checkboxes are made for: [for (let i = 1; i <= 8; i++)]
    for born, [for (let i = 0; i <= 8; i++)] for survive. *)
Definition bornChoices : list Z := fromTo 1 8.
Definition surviveChoices : list Z := fromTo 0 8.

(** [window.RULES[ruleName]] *)
Fixpoint lookupRule (name : string) (rules : list (string * Rule)) : option Rule :=
  match rules with
  | [] => None
  | (n, r) :: rules => if String.eqb n name then Some r else lookupRule name rules
  end.

(** The values of the options of the rule selector: the empty value of
    "Select Rule..." and the names of [RULES]. *)
Definition ruleOptions : list string := "" :: RULES.*1.

(** The change handler of the rule selector, for a value the selector
    offers. *)
Definition onRuleSelect (ruleName : string) (g : GameOfLife) : GameOfLife :=
  if String.eqb ruleName "" then g
  else match lookupRule ruleName RULES with
       | Some rule => applyRule rule g
       | None => g
       end.

(** The cells [draw()] fills from one stored chunk, in the order of the
    [fillRect] calls. *)
Definition drawChunk (size minX minY maxX maxY cx cy : Z) (chunk : list Z)
    : list (Z * Z) :=
  let chunkBaseX := cx * size in
  let chunkBaseY := cy * size in
  i ← seqZ 0 (Z.of_nat (length chunk));
  if truthy (Uint8Array.load chunk i) then
    let ly := i / size in
    let lx := Z.rem i size in
    let gx := chunkBaseX + lx in
    let gy := chunkBaseY + ly in
    if (gx <? minX) || (maxX <? gx) || (gy <? minY) || (maxY <? gy) then []
    else [(gx, gy)]
  else [].

(** [draw()], as the list of the cells it fills; the pixel rectangle of a
    cell is computed in floating point from the camera and left out.
    [startGrid] and [endGrid] are the values of [this.screenToGrid(0, 0)]
    and of [this.screenToGrid(width, height)]. *)
Definition draw (startGrid endGrid : Z * Z) (g : GameOfLife) : list (Z * Z) :=
  let minX := startGrid.1 - 1 in
  let minY := startGrid.2 - 1 in
  let maxX := endGrid.1 + 1 in
  let maxY := endGrid.2 + 1 in
  let minCX := chunkCoord minX (gameChunkSize g) in
  let minCY := chunkCoord minY (gameChunkSize g) in
  let maxCX := chunkCoord maxX (gameChunkSize g) in
  let maxCY := chunkCoord maxY (gameChunkSize g) in
  cy ← fromTo minCY maxCY;
  cx ← fromTo minCX maxCX;
  match (getChunk cx cy (grid g)).1 with
  | None => []
  | Some chunk =>
      drawChunk (gameChunkSize g) minX minY maxX maxY cx cy chunk
  end.

(** [pause()] and one run of [loop()]; [due] is the outcome of
    [elapsed > fpsInterval]. *)
Definition pause (a : App) : App :=
  mkApp (game a) false (isDragging a) (isDrawing a) (drawState a).

Definition loop (due : bool) (a : App) : option App :=
  if negb (isRunning a) then Some a
  else if due then g ← computeNextGen (game a); Some (withGame g a)
  else Some a.

(** [start()], which runs [loop()] once itself. *)
Definition start (due : bool) (a : App) : option App :=
  if isRunning a then Some a
  else loop due (mkApp (game a) true (isDragging a) (isDrawing a) (drawState a)).

(** * Notions for the statements *)

(** ** Well-formed states *)

(** The key and the array index that [setCell] and [getCell] compute for
    the cell [(x, y)]. *)
Definition keyOf (size x y : Z) : string :=
  getChunkKey (chunkCoord x size) (chunkCoord y size).

Definition indexOf (size x y : Z) : Z :=
  localOffset y size * size + localOffset x size.

(** A key is the rendering of a pair of integers. *)
Definition key_ok (key : string) : Prop :=
  (λ p : Z * Z, getChunkKey p.1 p.2) <$> Key.parse key = Some key.

(** The state a [ChunkManager] with a positive integer chunk size reaches
    through its methods: every key renders a chunk coordinate and every
    array has [chunkSize * chunkSize] elements. *)
Definition wf_grid (cm : ChunkManager) : Prop :=
  0 < chunkSize cm ∧
  map_Forall (λ key chunk,
    key_ok key ∧ length chunk = Z.to_nat (chunkSize cm * chunkSize cm))
    (chunks cm).

(** The engine and its grid agree on a positive chunk size, as the
    constructor and [computeNextGen] arrange it. *)
Definition wf_game (g : GameOfLife) : Prop :=
  gameChunkSize g = chunkSize (grid g) ∧ wf_grid (grid g).

#[global] Instance key_ok_dec key : Decision (key_ok key).
Proof. unfold key_ok. apply _. Defined.

#[global] Instance wf_grid_dec cm : Decision (wf_grid cm).
Proof. unfold wf_grid. apply _. Defined.

#[global] Instance wf_game_dec g : Decision (wf_game g).
Proof. unfold wf_game. apply _. Defined.

(** ** The notions of the specification *)

(** Specification: a cell is alive when its state is nonzero. *)
Definition alive (cm : ChunkManager) (x y : Z) : bool := truthy (get cm x y).

(** Specification: the eight cells adjacent to [(x, y)]. *)
Definition adjacent (x y : Z) : list (Z * Z) :=
  [(x - 1, y - 1); (x, y - 1); (x + 1, y - 1);
   (x - 1, y);                 (x + 1, y);
   (x - 1, y + 1); (x, y + 1); (x + 1, y + 1)].

(** Specification: the neighbor count is the number of live cells among
    the eight adjacent ones. *)
Definition liveNeighbors (cm : ChunkManager) (x y : Z) : Z :=
  Z.of_nat (length (filter (λ c, alive cm c.1 c.2) (adjacent x y))).

(** Specification: the next state is alive when the cell is alive and its
    count is in [survive], or the cell is dead and its count is in
    [born]. *)
Definition ruleAlive (born survive : gset Z) (cm : ChunkManager) (x y : Z) : Prop :=
  (alive cm x y ∧ liveNeighbors cm x y ∈ survive) ∨
  (¬ alive cm x y ∧ liveNeighbors cm x y ∈ born).

#[global] Instance ruleAlive_dec born survive cm x y :
  Decision (ruleAlive born survive cm x y).
Proof. unfold ruleAlive. apply _. Defined.

(** The live (nonzero) elements of one chunk. *)
Definition liveIn (chunk : list Z) : Z :=
  Z.of_nat (length (filter (λ v, v ≠ 0) chunk)).

(** Specification: the population is the total count of live cells across
    the stored grid. *)
Definition liveCount (cm : ChunkManager) : Z :=
  map_fold (λ _ chunk n, liveIn chunk + n) 0 (chunks cm).

(** Every stored chunk holds a live cell. *)
Definition populated (cm : ChunkManager) : Prop :=
  map_Forall (λ _ chunk, ∃ v, v ∈ chunk ∧ v ≠ 0) (chunks cm).

(** From [cm] to [cm'] the chunk [(cx, cy)] is present afterwards and no
    other chunk has changed. *)
Definition landsIn (cm cm' : ChunkManager) (cx cy : Z) : Prop :=
  is_Some (chunks cm' !! getChunkKey cx cy) ∧
  ∀ key, key ≠ getChunkKey cx cy → chunks cm' !! key = chunks cm !! key.

(** ** [computeNextGen] seen from the cells *)

(** The chunk map once [getOrCreateChunk] has run for [key]. *)
Definition ensureChunk (cm : ChunkManager) (key : string) : gmap string (list Z) :=
  match chunks cm !! key with
  | Some _ => chunks cm
  | None => <[key := Uint8Array.make (chunkSize cm * chunkSize cm)]> (chunks cm)
  end.

(** The cells of chunk [(cx, cy)] in loop order. *)
Definition chunkCells (size cx cy : Z) : list (Z * Z) :=
  ly ← seqZ 0 size; lx ← seqZ 0 size; [(cx * size + lx, cy * size + ly)].

(** The cells [computeNextGen] evaluates, given the keys to check. *)
Definition regionCells (size : Z) (keys : list string) : list (Z * Z) :=
  p ← omap Key.parse keys; chunkCells size p.1 p.2.

(** Marks the listed cells alive, one [setCell(x, y, 1)] each. *)
Definition paint (cells : list (Z * Z)) (cm : ChunkManager) : ChunkManager :=
  foldl (λ cm c, set cm c.1 c.2 1) cm cells.

(** [nextState] is truthy at the cell [c]. *)
Definition aliveNext (g : GameOfLife) (c : Z * Z) : Prop :=
  nextState g c.1 c.2 ≠ 0.

#[global] Instance aliveNext_dec g c : Decision (aliveNext g c).
Proof. unfold aliveNext. apply _. Defined.

(** The keys [computeNextGen] collects in [chunksToCheck]. *)
Definition evalRegion (g : GameOfLife) : gset string :=
  default ∅ (chunksToCheck (grid g)).

(** The cell [(x, y)] is evaluated by [computeNextGen]. *)
Definition inRegion (g : GameOfLife) (x y : Z) : Prop :=
  keyOf (gameChunkSize g) x y ∈ evalRegion g.

#[global] Instance inRegion_dec g x y : Decision (inRegion g x y).
Proof. unfold inRegion. apply _. Defined.

(** Specification: the evaluation region is sound for the state [g]. The
    region is the stored chunks with their eight neighbours; it holds
    every live cell and every cell whose rule-defined next state is alive,
    and a cell outside it is dead in the destination grid, as the rule
    demands. *)
Definition regionSound (g : GameOfLife) : Prop :=
  ∃ g', computeNextGen g = Some g' ∧
    ∀ x y,
      (inRegion g x y ↔
         ∃ cx cy, is_Some (chunks (grid g) !! getChunkKey cx cy) ∧
           -1 ≤ chunkCoord x (gameChunkSize g) - cx ≤ 1 ∧
           -1 ≤ chunkCoord y (gameChunkSize g) - cy ≤ 1) ∧
      (alive (grid g) x y → inRegion g x y) ∧
      (ruleAlive (bornRules g) (surviveRules g) (grid g) x y → inRegion g x y) ∧
      (¬ inRegion g x y →
         get (grid g') x y = number 0 ∧
         ¬ ruleAlive (bornRules g) (surviveRules g) (grid g) x y).

(** The cells written by [computeNextGen], in the order of the writes. *)
Definition bornCells (g : GameOfLife) : list (Z * Z) :=
  filter (aliveNext g) (regionCells (gameChunkSize g) (elements (evalRegion g))).

(** ** Patterns *)

(** The grid holds the pattern [f]: state 1 where [f] is true, dead
    elsewhere. *)
Definition shows (cm : ChunkManager) (f : Z → Z → bool) : Prop :=
  ∀ x y, get cm x y = number (if f x y then 1 else 0).

(** The number of cells of [f] among the eight adjacent to [(x, y)]. *)
Definition countAround (f : Z → Z → bool) (x y : Z) : Z :=
  Z.of_nat (length (filter (λ c, f c.1 c.2) (adjacent x y))).

(** One generation of a pattern under the rule [born]/[survive]. *)
Definition ruleStep (born survive : gset Z) (f : Z → Z → bool) (x y : Z) : bool :=
  if f x y then bool_decide (countAround f x y ∈ survive)
  else bool_decide (countAround f x y ∈ born).

(** The horizontal and the vertical segment of three cells centred at
    [(x, y)]. *)
Definition hseg (x y a b : Z) : bool :=
  (b =? y) && (x - 1 <=? a) && (a <=? x + 1).

Definition vseg (x y a b : Z) : bool :=
  (a =? x) && (y - 1 <=? b) && (b <=? y + 1).

(** ** Example states *)

(** An empty engine whose born set holds 0. *)
Definition bornWithoutNeighbors : GameOfLife :=
  mkGame 32 (newChunkManager 32) {[0]} {[2; 3]} 0 0.

(** A cell stored with state 2 next to two cells stored with state 1. *)
Definition stateTwoCorner : GameOfLife :=
  mkGame 32 (set (set (set (newChunkManager 32) 0 0 2) 1 0 1) 0 1 1)
         {[3]} {[2; 3]} 0 0.

(** A horizontal blinker across the chunk boundary at [x = 0]. *)
Definition blinkerAtOrigin : GameOfLife :=
  mkGame 32 (set (set (set (newChunkManager 32) (-1) 0 1) 0 0 1) 1 0 1)
         {[3]} {[2; 3]} 0 0.

(** ** Tactics *)

(** Runs the primitive steps of a method applied to a receiver. *)
Ltac run_M :=
  unfold mbind, M_bind, mret, M_ret,
    this_chunkSize, chunks_get, chunks_set, chunks_clear, chunk_store;
  simpl.

(** Settles every integer comparison of the goal that [lia] decides. *)
Ltac settle_comparisons :=
  repeat match goal with
  | |- context [?u =? ?v] =>
      first [ rewrite (proj2 (Z.eqb_eq u v)) by lia
            | rewrite (proj2 (Z.eqb_neq u v)) by lia ]
  | |- context [?u <=? ?v] =>
      first [ rewrite (proj2 (Z.leb_le u v)) by lia
            | rewrite (proj2 (Z.leb_gt u v)) by lia ]
  end.

(** ** Notions for the further properties *)

(** A chunk is stored, and its only live cell has been erased. *)
Definition erasedCell : GameOfLife :=
  mkGame 32 (set (set (newChunkManager 32) 7 7 1) 7 7 0) {[3]} {[2; 3]} 4 1.

(** The blinker of [blinkerAtOrigin] moved by [(5, -3)], in an engine
    with chunks of size 8 that also stores a dead chunk. *)
Definition blinkerMoved : GameOfLife :=
  mkGame 8 (set (set (set (set (newChunkManager 8) 100 100 0)
              4 (-3) 1) 5 (-3) 1) 6 (-3) 1) {[3]} {[2; 3]} 7 0.

(** Every stored element is a byte. *)
Definition byteGrid (cm : ChunkManager) : Prop :=
  map_Forall (λ _ chunk, Forall (λ v, 0 ≤ v < 256) chunk) (chunks cm).

(** The grids built from [new ChunkManager(size)] by method calls. *)
Inductive built (size : Z) : ChunkManager → Prop :=
| built_new : built size (newChunkManager size)
| built_setCell cm x y state :
    built size cm → built size (setCell x y state cm).2
| built_getCell cm x y :
    built size cm → built size (getCell x y cm).2
| built_getChunk cm cx cy :
    built size cm → built size (getChunk cx cy cm).2
| built_getOrCreateChunk cm cx cy :
    built size cm → built size (getOrCreateChunk cx cy cm).2
| built_clear cm :
    built size cm → built size (clear cm).2.

(** Every cell reads 0 or 1. *)
Definition bitGrid (cm : ChunkManager) : Prop :=
  ∀ x y, get cm x y = number 0 ∨ get cm x y = number 1.

(** The counts the rule controls can put into the sets. *)
Definition rulesInRange (g : GameOfLife) : Prop :=
  (∀ n, n ∈ bornRules g → 1 ≤ n ≤ 8) ∧ (∀ n, n ∈ surviveRules g → 0 ≤ n ≤ 8).

Definition app_ok (a : App) : Prop :=
  wf_game (game a) ∧ bitGrid (grid (game a)) ∧ rulesInRange (game a) ∧
  (drawState a = 0 ∨ drawState a = 1).

(** One action of the user or of the animation loop. The handlers left
    out (the resize, the wheel, the speed slider) write the canvas, the
    camera and [fps] only. A pattern is an array of rows of numbers. *)
Inductive uiStep : App → App → Prop :=
| ui_mouseDown e a : uiStep a (handleMouseDown e a)
| ui_mouseMove e a : uiStep a (handleMouseMove e a)
| ui_mouseUp a : uiStep a (handleMouseUp a)
| ui_loadPattern center pattern a cm :
    loadPattern center pattern (grid (game a)) = Some cm →
    uiStep a (withGame (withGrid cm (game a)) a)
| ui_clear a : uiStep a (clearApp a)
| ui_randomize chosen startGrid endGrid a :
    uiStep a (randomize chosen startGrid endGrid a)
| ui_born val checked a :
    val ∈ bornChoices →
    uiStep a (withGame (onBornChange val checked (game a)) a)
| ui_survive val checked a :
    val ∈ surviveChoices →
    uiStep a (withGame (onSurviveChange val checked (game a)) a)
| ui_ruleSelect ruleName a :
    ruleName ∈ ruleOptions →
    uiStep a (withGame (onRuleSelect ruleName (game a)) a)
| ui_start due a a' : start due a = Some a' → uiStep a a'
| ui_pause a : uiStep a (pause a)
| ui_loop due a a' : loop due a = Some a' → uiStep a a'.

(** The states the application reaches from its constructor. *)
Definition reachable (a : App) : Prop := rtc uiStep newApp a.

(** The cells of [cm'] are those of [cm] moved by [(dx, dy)]. *)
Definition shifted (dx dy : Z) (cm cm' : ChunkManager) : Prop :=
  ∀ x y, get cm' (x + dx) (y + dy) = get cm x y.

(** The cells a pattern marks alive when loaded with its top left corner
    at [(startX, startY)]. *)
Definition patternCell (startX startY : Z) (pattern : list (list Z))
    (x y : Z) : Prop :=
  ∃ (py px : nat) row v,
    pattern !! py = Some row ∧ row !! px = Some v ∧ v ≠ 0 ∧
    x = startX + Z.of_nat px ∧ y = startY + Z.of_nat py.

(** The cells [loadPattern] writes, in the order of the writes. *)
Definition patternCells (startX startY : Z) (pattern : list (list Z))
    : list (Z * Z) :=
  '(py, row) ← indexed pattern;
  '(px, v) ← indexed row;
  if v =? 0 then [] else [(startX + px, startY + py)].

(** The cells [randomize] writes, in the order of the writes. *)
Definition randomCells (chosen : Z → Z → bool) (startGrid endGrid : Z * Z)
    : list (Z * Z) :=
  y ← fromTo (startGrid.2 - 1) (endGrid.2 + 1);
  x ← fromTo (startGrid.1 - 1) (endGrid.1 + 1);
  if chosen x y then [(x, y)] else [].

(** The engine after a touch at the cell [(3, 4)] and a press of the
    start button. *)
Definition touchedAndStarted : App :=
  mkApp (withGrid (set (grid newGame) 3 4 1) newGame) true false true 1.

(** * Lemmas *)

(** ** Keys render and parse back *)

Module KeyFacts.
Import Key.

Lemma split_cons_nonempty s : split s ≠ [].
Proof. destruct s as [|c s']; simpl; [done|]. by repeat case_match. Qed.

Lemma split_append a b :
  split a = [a] → split (a +:+ "," +:+ b) = a :: split b.
Proof.
  induction a as [|c a IH]; simpl; [done|].
  destruct (Ascii.eqb c ","); [by intros [=]|].
  destruct (split a) as [|p ps] eqn:Hsplit; [by destruct (split_cons_nonempty a)|].
  intros [= -> ->]. by rewrite IH.
Qed.

Lemma split_uint d :
  split (NilEmpty.string_of_uint d) = [NilEmpty.string_of_uint d].
Proof. induction d; simpl; by rewrite ?IHd. Qed.

Lemma split_numberToString n : split (numberToString n) = [numberToString n].
Proof.
  unfold numberToString.
  destruct (Z.to_int n) as [d|d]; destruct d; simpl; by rewrite ?split_uint.
Qed.

Lemma Number_numberToString n : Number (numberToString n) = Some n.
Proof.
  unfold Number, numberToString.
  rewrite NilZero.isi.
  - simpl. by rewrite DecimalZ.of_to.
  - destruct n; simpl; [done| |done].
    intros [= H]. by apply DecimalPos.Unsigned.to_uint_nonnil in H.
  - destruct n; simpl; [done..|].
    intros [= H]. by apply DecimalPos.Unsigned.to_uint_nonnil in H.
Qed.

End KeyFacts.

Lemma parse_getChunkKey cx cy : Key.parse (getChunkKey cx cy) = Some (cx, cy).
Proof.
  unfold Key.parse, getChunkKey.
  rewrite KeyFacts.split_append, KeyFacts.split_numberToString
    by apply KeyFacts.split_numberToString.
  by rewrite !KeyFacts.Number_numberToString.
Qed.

Lemma getChunkKey_inj cx cy cx' cy' :
  getChunkKey cx cy = getChunkKey cx' cy' → cx = cx' ∧ cy = cy'.
Proof.
  intros H. apply (f_equal Key.parse) in H.
  rewrite !parse_getChunkKey in H. by simplify_eq.
Qed.

(** ** Cells, chunks and offsets *)

Section Offsets.
Context (size : Z) (Hsize : 0 < size).

(** The double remainder of [setCell] is the floored remainder. *)
Lemma localOffset_mod x : localOffset x size = x mod size.
Proof.
  unfold localOffset.
  pose proof (Z.rem_bound_abs x size ltac:(lia)) as Hbound.
  pose proof (Z.quot_rem' x size) as Hquot.
  rewrite Z.rem_mod_nonneg by lia.
  replace (Z.rem x size + size) with (x + (1 - x ÷ size) * size) by lia.
  apply Z_mod_plus_full.
Qed.

Lemma localOffset_range x : 0 ≤ localOffset x size < size.
Proof. rewrite localOffset_mod. by apply Z.mod_pos_bound. Qed.

Lemma chunk_decompose x :
  x = chunkCoord x size * size + localOffset x size.
Proof.
  rewrite localOffset_mod. unfold chunkCoord.
  pose proof (Z.div_mod x size ltac:(lia)). lia.
Qed.

Lemma chunkCoord_local cx lx :
  0 ≤ lx < size → chunkCoord (cx * size + lx) size = cx.
Proof.
  intros Hlx. unfold chunkCoord.
  symmetry. apply (Z.div_unique_pos _ _ cx lx); lia.
Qed.

Lemma localOffset_local cx lx :
  0 ≤ lx < size → localOffset (cx * size + lx) size = lx.
Proof.
  intros Hlx. rewrite localOffset_mod.
  symmetry. apply (Z.mod_unique_pos _ _ cx lx); lia.
Qed.

(** Neighbouring cells lie in the same or in neighbouring chunks. *)
Lemma chunkCoord_near x dx :
  -1 ≤ dx ≤ 1 → -1 ≤ chunkCoord (x + dx) size - chunkCoord x size ≤ 1.
Proof.
  intros Hdx. unfold chunkCoord.
  pose proof (Z.div_le_mono (x - size) (x + dx) size ltac:(lia) ltac:(lia)) as Hlo.
  pose proof (Z.div_le_mono (x + dx) (x + size) size ltac:(lia) ltac:(lia)) as Hhi.
  replace (x - size) with (x + (-1) * size) in Hlo by lia.
  replace (x + size) with (x + 1 * size) in Hhi by lia.
  rewrite Z.div_add in Hlo, Hhi by lia. lia.
Qed.

Lemma indexOf_range x y : 0 ≤ indexOf size x y < size * size.
Proof.
  unfold indexOf.
  pose proof (localOffset_range x). pose proof (localOffset_range y). nia.
Qed.

(** Distinct cells differ in their key or in their index. *)
Lemma cell_inj x y x' y' :
  keyOf size x y = keyOf size x' y' →
  indexOf size x y = indexOf size x' y' →
  x = x' ∧ y = y'.
Proof.
  intros [Hcx Hcy]%getChunkKey_inj Hidx. unfold indexOf in Hidx.
  pose proof (localOffset_range x). pose proof (localOffset_range y).
  pose proof (localOffset_range x'). pose proof (localOffset_range y').
  assert (localOffset y size = localOffset y' size) as Hly by nia.
  assert (localOffset x size = localOffset x' size) as Hlx by nia.
  rewrite (chunk_decompose x), (chunk_decompose x'),
    (chunk_decompose y), (chunk_decompose y').
  by rewrite Hcx, Hcy, Hlx, Hly.
Qed.
End Offsets.

(** ** Well-formed grids *)

Create HintDb grid discriminated.

Lemma key_ok_getChunkKey cx cy : key_ok (getChunkKey cx cy).
Proof. unfold key_ok. by rewrite parse_getChunkKey. Qed.

Lemma key_ok_inv key : key_ok key → ∃ cx cy, key = getChunkKey cx cy.
Proof.
  unfold key_ok. destruct (Key.parse key) as [[cx cy]|]; [|done].
  intros [= <-]. by exists cx, cy.
Qed.

#[global] Hint Resolve key_ok_getChunkKey : grid.

(** ** [get] and [set] in closed form *)

(** [getCell] reads the chunk of the cell at the index of the cell. *)
Lemma get_def cm x y :
  get cm x y =
    match chunks cm !! keyOf (chunkSize cm) x y with
    | None => number 0
    | Some chunk => Uint8Array.load chunk (indexOf (chunkSize cm) x y)
    end.
Proof.
  unfold get, getCell, keyOf, indexOf. run_M.
  by destruct (chunks cm !! _).
Qed.

(** [getCell] returns its receiver as it found it. *)
Lemma getCell_state cm x y : (getCell x y cm).2 = cm.
Proof.
  unfold getCell. run_M. by destruct (chunks cm !! _).
Qed.

(** [setCell] stores into the chunk of the cell, created when absent. *)
Lemma set_def cm x y state :
  set cm x y state =
    mkChunkManager (chunkSize cm)
      (alter (λ chunk, Uint8Array.store chunk (indexOf (chunkSize cm) x y) state)
         (keyOf (chunkSize cm) x y)
         (ensureChunk cm (keyOf (chunkSize cm) x y))).
Proof.
  unfold set, setCell, getOrCreateChunk, ensureChunk, keyOf, indexOf. run_M.
  by destruct (chunks cm !! _).
Qed.

Lemma chunkSize_set cm x y state : chunkSize (set cm x y state) = chunkSize cm.
Proof. by rewrite set_def. Qed.

Lemma ensureChunk_lookup_ne cm key key' :
  key ≠ key' → ensureChunk cm key !! key' = chunks cm !! key'.
Proof.
  intros Hne. unfold ensureChunk.
  destruct (chunks cm !! key); [done|]. by rewrite lookup_insert_ne.
Qed.

Lemma wf_grid_new size : 0 < size → wf_grid (newChunkManager size).
Proof. intros Hsize. split; [done|]. apply map_Forall_empty. Qed.

Lemma get_new size x y : get (newChunkManager size) x y = number 0.
Proof. by rewrite get_def. Qed.

(** After [clear] every cell reads 0. *)
Lemma get_clear cm x y : get (clear cm).2 x y = number 0.
Proof. by rewrite get_def. Qed.

#[global] Hint Resolve wf_grid_new : grid.

(** ** Loads and stores on a chunk *)

Module Uint8ArrayFacts.
Import Uint8Array.

Lemma length_store chunk i v : length (store chunk i v) = length chunk.
Proof. unfold store. case_match; [done|]. apply length_insert. Qed.

Lemma load_store_eq chunk i v :
  0 ≤ i → (Z.to_nat i < length chunk)%nat →
  load (store chunk i v) i = number (v mod 256).
Proof.
  intros Hi Hlen. unfold load, store.
  destruct (Z.ltb_spec i 0); [lia|].
  by rewrite list_lookup_insert_eq.
Qed.

Lemma load_store_ne chunk i j v :
  i ≠ j → load (store chunk i v) j = load chunk j.
Proof.
  intros Hne. unfold load, store.
  destruct (Z.ltb_spec j 0); [done|].
  destruct (Z.ltb_spec i 0); [done|].
  rewrite list_lookup_insert_ne; [done|lia].
Qed.

Lemma load_make n j : 0 ≤ j < n → load (make n) j = number 0.
Proof.
  intros Hj. unfold load, make.
  destruct (Z.ltb_spec j 0); [lia|].
  rewrite lookup_replicate_2; [done|lia].
Qed.

Lemma load_zero chunk i :
  load chunk i = number 0 → 0 ≤ i ∧ chunk !! Z.to_nat i = Some 0.
Proof.
  unfold load. destruct (Z.ltb_spec i 0); [done|].
  destruct (chunk !! Z.to_nat i); [|done]. by intros [= ->].
Qed.

End Uint8ArrayFacts.

(** ** Reads and writes on a well-formed grid *)

Section WellFormedGrid.
Context (cm : ChunkManager) (Hwf : wf_grid cm).

Lemma ensureChunk_lookup key :
  key_ok key →
  ∃ chunk, ensureChunk cm key !! key = Some chunk ∧
    length chunk = Z.to_nat (chunkSize cm * chunkSize cm) ∧
    (chunks cm !! key = None → chunk = Uint8Array.make (chunkSize cm * chunkSize cm)) ∧
    (∀ c, chunks cm !! key = Some c → chunk = c).
Proof.
  destruct Hwf as [Hsize Hall]. intros Hkey. unfold ensureChunk.
  destruct (chunks cm !! key) as [c|] eqn:Hc.
  - exists c. split_and!; [done| |done|by intros ? [= ->]].
    by destruct (Hall _ _ Hc).
  - eexists. rewrite lookup_insert_eq. split_and!; [done| |done|done].
    unfold Uint8Array.make. by rewrite length_replicate.
Qed.

(** The chunk written by [setCell(x, y, _)], created when absent. *)
Lemma ensureChunk_cell x y :
  ∃ chunk,
    ensureChunk cm (keyOf (chunkSize cm) x y) !! keyOf (chunkSize cm) x y
      = Some chunk ∧
    length chunk = Z.to_nat (chunkSize cm * chunkSize cm) ∧
    (chunks cm !! keyOf (chunkSize cm) x y = None →
     chunk = Uint8Array.make (chunkSize cm * chunkSize cm)) ∧
    (∀ c, chunks cm !! keyOf (chunkSize cm) x y = Some c → chunk = c).
Proof. apply ensureChunk_lookup, key_ok_getChunkKey. Qed.

Lemma wf_grid_set x y state : wf_grid (set cm x y state).
Proof.
  pose proof Hwf as [Hsize Hall]. rewrite set_def.
  split; [done|]. simpl. intros key chunk.
  destruct (decide (keyOf (chunkSize cm) x y = key)) as [<-|Hne].
  - destruct (ensureChunk_cell x y) as (c & Hc & Hlen & _).
    rewrite lookup_alter_eq, Hc. intros [= <-].
    split; [apply key_ok_getChunkKey|].
    by rewrite Uint8ArrayFacts.length_store.
  - rewrite lookup_alter_ne, ensureChunk_lookup_ne by done. apply Hall.
Qed.

Lemma get_set_eq x y state :
  get (set cm x y state) x y = number (state mod 256).
Proof.
  pose proof Hwf as [Hsize _]. rewrite get_def, set_def. simpl.
  destruct (ensureChunk_cell x y) as (c & Hc & Hlen & _).
  rewrite lookup_alter_eq, Hc. simpl.
  pose proof (indexOf_range (chunkSize cm) Hsize x y).
  apply Uint8ArrayFacts.load_store_eq; lia.
Qed.

Lemma get_set_ne x y x' y' state :
  (x, y) ≠ (x', y') → get (set cm x y state) x' y' = get cm x' y'.
Proof.
  intros Hne. pose proof Hwf as [Hsize _].
  rewrite !get_def, set_def. simpl.
  destruct (decide (keyOf (chunkSize cm) x y = keyOf (chunkSize cm) x' y'))
    as [Hkey|Hkey].
  - destruct (ensureChunk_cell x y) as (c & Hc & Hlen & Hnew & Hold).
    rewrite <-Hkey, lookup_alter_eq, Hc. simpl.
    rewrite Uint8ArrayFacts.load_store_ne.
    + destruct (chunks cm !! keyOf (chunkSize cm) x y) as [c0|] eqn:Hc0.
      * by rewrite (Hold c0).
      * rewrite Hnew by done. apply Uint8ArrayFacts.load_make.
        by apply indexOf_range.
    + intros Hidx. destruct (cell_inj _ Hsize _ _ _ _ Hkey Hidx). congruence.
  - by rewrite lookup_alter_ne, ensureChunk_lookup_ne.
Qed.

Lemma get_set_byte x y state :
  0 ≤ state < 256 → get (set cm x y state) x y = number state.
Proof. intros Hstate. by rewrite get_set_eq, Z.mod_small. Qed.

Lemma get_set x y x' y' state :
  get (set cm x y state) x' y' =
    if decide ((x, y) = (x', y')) then number (state mod 256) else get cm x' y'.
Proof.
  case_decide as Heq.
  - injection Heq as <- <-. apply get_set_eq.
  - by apply get_set_ne.
Qed.

(** A stored chunk is read back through [get] at the cells it covers. *)
Lemma get_stored cx cy chunk lx ly :
  chunks cm !! getChunkKey cx cy = Some chunk →
  0 ≤ lx < chunkSize cm → 0 ≤ ly < chunkSize cm →
  get cm (cx * chunkSize cm + lx) (cy * chunkSize cm + ly) =
    Uint8Array.load chunk (ly * chunkSize cm + lx).
Proof.
  destruct Hwf as [Hsize _]. intros Hchunk Hlx Hly.
  rewrite get_def. unfold keyOf, indexOf.
  by rewrite !chunkCoord_local, !localOffset_local, Hchunk.
Qed.

(** A write touches the chunk of its cell only, and is found there. *)
Lemma set_landsIn x y state :
  landsIn cm (set cm x y state)
    (chunkCoord x (chunkSize cm)) (chunkCoord y (chunkSize cm)).
Proof.
  rewrite set_def. split; simpl.
  - destruct (ensureChunk_cell x y) as (c & Hc & _).
    fold (keyOf (chunkSize cm) x y). rewrite lookup_alter_eq, Hc. by eexists.
  - intros key Hne. by rewrite lookup_alter_ne, ensureChunk_lookup_ne.
Qed.

Lemma set_stored x y state :
  ∃ chunk, chunks (set cm x y state) !! keyOf (chunkSize cm) x y = Some chunk ∧
    Uint8Array.load chunk (indexOf (chunkSize cm) x y) = number (state mod 256).
Proof.
  pose proof (get_set_eq x y state) as Hget.
  rewrite get_def, chunkSize_set in Hget.
  destruct (set_landsIn x y state) as [[chunk Hchunk] _].
  fold (keyOf (chunkSize cm) x y) in Hchunk. rewrite Hchunk in Hget.
  by exists chunk.
Qed.

End WellFormedGrid.

#[global] Hint Resolve wf_grid_set : grid.

(** ** The evaluation region *)

(** The nine keys the first loop adds for one stored chunk. *)
Lemma elem_of_addSelfAndNeighbors k cx cy acc :
  k ∈ addSelfAndNeighbors cx cy acc ↔
  k ∈ acc ∨
  ∃ dx dy, -1 ≤ dx ≤ 1 ∧ -1 ≤ dy ≤ 1 ∧ k = getChunkKey (cx + dx) (cy + dy).
Proof.
  unfold addSelfAndNeighbors, offsets3. simpl.
  rewrite !elem_of_union, !elem_of_singleton. split.
  - intros H. repeat (destruct H as [->|H]); [..|by left];
      right; eexists _, _; (split; [|split]; [| |reflexivity]; lia).
  - intros [H|(dx & dy & Hdx & Hdy & ->)]; [tauto|].
    assert (dx = -1 ∨ dx = 0 ∨ dx = 1) as [->|[->| ->]] by lia;
    assert (dy = -1 ∨ dy = 0 ∨ dy = 1) as [->|[->| ->]] by lia; tauto.
Qed.

Lemma parse_key_ok key : key_ok key →
  ∃ cx cy, Key.parse key = Some (cx, cy) ∧ key = getChunkKey cx cy.
Proof.
  intros (cx & cy & ->)%key_ok_inv. exists cx, cy.
  by rewrite parse_getChunkKey.
Qed.

Lemma collect_spec (l : list (string * list Z)) (acc : gset string) :
  Forall (λ entry, key_ok entry.1) l →
  ∃ S, foldl collectStep (Some acc) l = Some S ∧
    ∀ k, k ∈ S ↔
      k ∈ acc ∨ ∃ cx cy dx dy,
        getChunkKey cx cy ∈ l.*1 ∧ -1 ≤ dx ≤ 1 ∧ -1 ≤ dy ≤ 1 ∧
        k = getChunkKey (cx + dx) (cy + dy).
Proof.
  intros Hl. revert acc.
  induction Hl as [|[key chunk] l Hkey Hl IH]; intros acc; simpl.
  - exists acc. split; [done|]. intros k. split; [by left|].
    intros [?|(? & ? & ? & ? & []%elem_of_nil & _)]. done.
  - destruct (parse_key_ok key Hkey) as (cx & cy & Hparse & ->).
    rewrite Hparse. simpl.
    destruct (IH (addSelfAndNeighbors cx cy acc)) as (S & -> & HS).
    exists S. split; [done|]. intros k.
    rewrite HS, elem_of_addSelfAndNeighbors. split.
    + intros [[?|(dx & dy & ? & ? & ->)]|(cx' & cy' & dx & dy & ? & ?)].
      * by left.
      * right. exists cx, cy, dx, dy. split; [by left|done].
      * right. exists cx', cy', dx, dy. split; [by right|tauto].
    + intros [?|(cx' & cy' & dx & dy & [Heq|?]%elem_of_cons & ? & ? & ->)].
      * by left; left.
      * apply getChunkKey_inj in Heq as [-> ->]. left; right. by exists dx, dy.
      * right. by exists cx', cy', dx, dy.
Qed.

(** On a well-formed grid the first loop parses every key, and collects
    the keys of the stored chunks and of their eight neighbours. *)
Lemma chunksToCheck_spec cm :
  wf_grid cm →
  ∃ S, chunksToCheck cm = Some S ∧
    ∀ k, k ∈ S ↔
      ∃ cx cy dx dy,
        is_Some (chunks cm !! getChunkKey cx cy) ∧
        -1 ≤ dx ≤ 1 ∧ -1 ≤ dy ≤ 1 ∧ k = getChunkKey (cx + dx) (cy + dy).
Proof.
  intros [_ Hall].
  destruct (collect_spec (map_to_list (chunks cm)) ∅) as (S & HS & Hin).
  { apply Forall_forall. intros [key chunk] Hin%elem_of_map_to_list.
    by destruct (Hall _ _ Hin). }
  exists S. split; [done|]. intros k. rewrite Hin. split.
  - intros [[]%not_elem_of_empty|(cx & cy & dx & dy & Hk & ?)].
    exists cx, cy, dx, dy. split; [|done].
    apply list_elem_of_fmap in Hk as ([key chunk] & Heq & Hk). simpl in Heq.
    subst key. apply elem_of_map_to_list in Hk. by eexists.
  - intros (cx & cy & dx & dy & [chunk Hk] & ?). right.
    exists cx, cy, dx, dy. split; [|done].
    apply list_elem_of_fmap. exists (getChunkKey cx cy, chunk).
    split; [done|]. by apply elem_of_map_to_list.
Qed.

(** ** The second loop as one pass over the evaluated cells *)

Lemma foldl_bind {A B C} (f : A → C → A) (h : B → list C) (l : list B) (a : A) :
  foldl f a (l ≫= h) = foldl (λ a x, foldl f a (h x)) a l.
Proof.
  revert a. induction l as [|x l IH]; intros a; [done|].
  simpl. by rewrite foldl_app, IH.
Qed.

Lemma foldl_pointwise {A B} (f f' : A → B → A) (l : list B) (a : A) :
  (∀ a x, f a x = f' a x) → foldl f a l = foldl f' a l.
Proof.
  intros Hf. revert a. induction l as [|x l IH]; intros a; [done|].
  simpl. by rewrite Hf, IH.
Qed.

(** The two inner loops visit the cells of the chunk one by one. *)
Lemma stepChunk_cells g cx cy acc :
  stepChunk g cx cy acc =
    foldl (λ acc c, stepCell g c.1 c.2 acc) acc (chunkCells (gameChunkSize g) cx cy).
Proof.
  unfold stepChunk, chunkCells. rewrite foldl_bind.
  apply foldl_pointwise. intros acc' ly. by rewrite foldl_bind.
Qed.

(** The second loop parses every key and visits the cells of the
    region. *)
Lemma processChunks_cells g keys acc :
  Forall key_ok keys →
  processChunks g keys acc =
    Some (foldl (λ acc c, stepCell g c.1 c.2 acc) acc
            (regionCells (gameChunkSize g) keys)).
Proof.
  intros Hkeys. unfold processChunks, regionCells. revert acc.
  induction Hkeys as [|key keys Hkey Hkeys IH]; intros acc; [done|].
  destruct (parse_key_ok key Hkey) as (cx & cy & Hparse & _).
  simpl. rewrite Hparse. simpl. by rewrite IH, foldl_app, stepChunk_cells.
Qed.

(** Visiting cells writes those with a truthy next state and counts
    them. *)
Lemma foldl_stepCell g cells cm n :
  foldl (λ acc c, stepCell g c.1 c.2 acc) (cm, n) cells =
    (paint (filter (aliveNext g) cells) cm,
     n + Z.of_nat (length (filter (aliveNext g) cells))).
Proof.
  revert cm n. induction cells as [|c cells IH]; intros cm n; simpl.
  - f_equal. lia.
  - unfold stepCell at 2. rewrite filter_cons.
    destruct (Z.eqb_spec (nextState g c.1 c.2) 0) as [Heq|Hne].
    + rewrite decide_False by (unfold aliveNext; tauto). apply IH.
    + rewrite decide_True by done. rewrite IH. simpl. f_equal. lia.
Qed.

(** ** The cells of the evaluation region *)

Lemma elem_of_chunkCells_local size cx cy c :
  c ∈ chunkCells size cx cy ↔
  ∃ lx ly, 0 ≤ lx < size ∧ 0 ≤ ly < size ∧ c = (cx * size + lx, cy * size + ly).
Proof.
  unfold chunkCells. rewrite list_elem_of_bind. split.
  - intros (ly & (lx & ->%list_elem_of_singleton & Hlx%elem_of_seqZ)%list_elem_of_bind
              & Hly%elem_of_seqZ).
    exists lx, ly. split_and!; [lia..|done].
  - intros (lx & ly & Hlx & Hly & ->). exists ly.
    rewrite list_elem_of_bind, elem_of_seqZ. split; [|lia].
    exists lx. rewrite list_elem_of_singleton, elem_of_seqZ. split; [done|lia].
Qed.

(** A chunk holds the cells whose chunk coordinates are its own. *)
Lemma elem_of_chunkCells size cx cy x y :
  0 < size →
  (x, y) ∈ chunkCells size cx cy ↔
  chunkCoord x size = cx ∧ chunkCoord y size = cy.
Proof.
  intros Hsize. rewrite elem_of_chunkCells_local. split.
  - intros (lx & ly & Hlx & Hly & [= -> ->]).
    by rewrite !chunkCoord_local.
  - intros [<- <-]. exists (localOffset x size), (localOffset y size).
    split_and!; [by apply localOffset_range..|].
    by rewrite <-!chunk_decompose.
Qed.

Lemma NoDup_chunkCells size cx cy : NoDup (chunkCells size cx cy).
Proof.
  unfold chunkCells. apply NoDup_bind; [| |apply NoDup_seqZ].
  - intros ly ly' c _ _.
    intros (lx & ->%list_elem_of_singleton & _)%list_elem_of_bind.
    intros (lx' & [= _ ?]%list_elem_of_singleton & _)%list_elem_of_bind. lia.
  - intros ly _. apply NoDup_bind; [| |apply NoDup_seqZ].
    + intros lx lx' c _ _ ->%list_elem_of_singleton [= ?]%list_elem_of_singleton. lia.
    + intros lx _. apply NoDup_singleton.
Qed.

(** A cell is visited when its key is among the keys to check, and no
    cell is visited twice. *)
Lemma elem_of_regionCells size keys x y :
  0 < size → Forall key_ok keys →
  (x, y) ∈ regionCells size keys ↔ keyOf size x y ∈ keys.
Proof.
  intros Hsize Hkeys. unfold regionCells.
  rewrite list_elem_of_bind. split.
  - intros ([cx cy] & Hc & (key & Hkey & Hparse)%list_elem_of_omap).
    simpl in Hc. apply elem_of_chunkCells in Hc as [<- <-]; [|done].
    rewrite Forall_forall in Hkeys.
    destruct (parse_key_ok key (Hkeys _ Hkey)) as (cx' & cy' & Hparse' & ->).
    rewrite Hparse' in Hparse. by injection Hparse as -> ->.
  - intros Hin. exists (chunkCoord x size, chunkCoord y size). split.
    + by apply elem_of_chunkCells.
    + apply list_elem_of_omap. eexists. split; [done|]. apply parse_getChunkKey.
Qed.

Lemma NoDup_regionCells size keys :
  0 < size → Forall key_ok keys → NoDup keys → NoDup (regionCells size keys).
Proof.
  intros Hsize Hkeys Hdup. unfold regionCells. apply NoDup_bind.
  - intros [cx cy] [cx' cy'] [x y] _ _ Hc Hc'. simpl in Hc, Hc'.
    apply elem_of_chunkCells in Hc as [<- <-]; [|done].
    by apply elem_of_chunkCells in Hc' as [<- <-].
  - intros [cx cy] _. apply NoDup_chunkCells.
  - induction Hkeys as [|key keys Hkey Hkeys IH]; [constructor|].
    apply NoDup_cons in Hdup as [Hnotin Hdup].
    destruct (parse_key_ok key Hkey) as (cx & cy & Hparse & ->).
    simpl. rewrite Hparse. apply NoDup_cons. split; [|by apply IH].
    intros (key' & Hin & Hparse')%list_elem_of_omap.
    rewrite Forall_forall in Hkeys.
    destruct (parse_key_ok key' (Hkeys _ Hin)) as (cx' & cy' & Hparse'' & ->).
    rewrite Hparse'' in Hparse'. by simplify_eq.
Qed.

(** ** Painting cells *)

Lemma chunkSize_paint cells cm : chunkSize (paint cells cm) = chunkSize cm.
Proof.
  revert cm. induction cells as [|c cells IH]; intros cm; [done|].
  change (paint (c :: cells) cm) with (paint cells (set cm c.1 c.2 1)).
  by rewrite IH, chunkSize_set.
Qed.

Lemma wf_grid_paint cells cm : wf_grid cm → wf_grid (paint cells cm).
Proof.
  revert cm. induction cells as [|c cells IH]; intros cm Hwf; [done|].
  apply IH. auto with grid.
Qed.

#[global] Hint Resolve wf_grid_paint : grid.

(** After painting, the painted cells read 1 and the others are
    unchanged. *)
Lemma get_paint cells cm x y :
  wf_grid cm →
  get (paint cells cm) x y =
    if decide ((x, y) ∈ cells) then number 1 else get cm x y.
Proof.
  revert cm. induction cells as [|[x' y'] cells IH]; intros cm Hwf.
  - rewrite decide_False; [done|]. apply not_elem_of_nil.
  - change (paint ((x', y') :: cells) cm) with (paint cells (set cm x' y' 1)).
    rewrite IH by auto with grid.
    destruct (decide ((x, y) ∈ cells)) as [Hin|Hnotin].
    + rewrite decide_True; [done|]. by right.
    + rewrite get_set by done.
      destruct (decide ((x', y') = (x, y))) as [Heq|Hne].
      * rewrite decide_True; [done|]. rewrite Heq. by left.
      * rewrite decide_False; [done|].
        intros [?|?]%elem_of_cons; congruence.
Qed.

(** ** The rule of the code against the rule of the specification *)

Lemma foldl_count {A} (P : A → bool) (l : list A) (n : Z) :
  foldl (λ n c, if P c then n + 1 else n) n l =
    n + Z.of_nat (length (filter (λ c, P c) l)).
Proof.
  revert n. induction l as [|c l IH]; intros n; simpl; [lia|].
  rewrite IH, filter_cons. destruct (P c); simpl; lia.
Qed.

Lemma adjacent_offsets x y :
  adjacent x y = (λ o : Z * Z, (x + o.1, y + o.2)) <$> neighborOffsets.
Proof.
  unfold adjacent. cbn. repeat f_equal; lia.
Qed.

(** The neighbour loop of [computeNextGen] computes the neighbor count
    of the specification. *)
Lemma countNeighbors_liveNeighbors cm x y :
  countNeighbors cm x y = liveNeighbors cm x y.
Proof.
  unfold countNeighbors, liveNeighbors.
  rewrite adjacent_offsets.
  rewrite (foldl_pointwise _
    (λ n o, if truthy (get cm (x + o.1) (y + o.2)) then n + 1 else n));
    [|by intros n [dx dy]].
  rewrite (foldl_count (λ o, truthy (get cm (x + o.1) (y + o.2)))).
  rewrite Z.add_0_l. f_equal.
  induction neighborOffsets as [|o l IH]; [done|].
  rewrite fmap_cons, !filter_cons. unfold alive at 1. simpl.
  destruct (decide _); simpl; by rewrite IH.
Qed.

Lemma liveNeighbors_range cm x y : 0 ≤ liveNeighbors cm x y ≤ 8.
Proof.
  unfold liveNeighbors.
  pose proof (length_filter (λ c, alive cm c.1 c.2) (adjacent x y)) as Hlen.
  simpl in Hlen. lia.
Qed.

Lemma liveNeighbors_pos cm x y :
  0 < liveNeighbors cm x y →
  ∃ dx dy, -1 ≤ dx ≤ 1 ∧ -1 ≤ dy ≤ 1 ∧ alive cm (x + dx) (y + dy).
Proof.
  unfold liveNeighbors. intros Hpos.
  destruct (filter _ (adjacent x y)) as [|[x' y'] l] eqn:Hfilter; [simpl in Hpos; lia|].
  assert ((x', y') ∈ filter (λ c, alive cm c.1 c.2) (adjacent x y)) as Hin
    by (rewrite Hfilter; left).
  apply list_elem_of_filter in Hin as [Halive Hin]. simpl in Halive.
  exists (x' - x), (y' - y).
  replace (x + (x' - x)) with x' by lia. replace (y + (y' - y)) with y' by lia.
  unfold adjacent in Hin. rewrite !elem_of_cons, elem_of_nil in Hin.
  assert (-1 ≤ x' - x ≤ 1 ∧ -1 ≤ y' - y ≤ 1) as [? ?]
    by (repeat destruct Hin as [[= -> ->]|Hin]; [lia..|done]).
  done.
Qed.

(** What [nextState] computes. *)
Lemma nextState_alive g x y :
  aliveNext g (x, y) ↔
  (is_one (get (grid g) x y) ∧ liveNeighbors (grid g) x y ∈ surviveRules g) ∨
  (¬ is_one (get (grid g) x y) ∧ liveNeighbors (grid g) x y ∈ bornRules g).
Proof.
  unfold aliveNext, nextState. simpl.
  rewrite countNeighbors_liveNeighbors.
  destruct (is_one _); repeat case_bool_decide; simpl; intuition lia.
Qed.

Lemma nextState_bit g x y : nextState g x y = 0 ∨ nextState g x y = 1.
Proof. unfold nextState. repeat case_match; auto. Qed.

(** A live cell lies in a stored chunk. *)
Lemma alive_stored cm x y :
  alive cm x y → is_Some (chunks cm !! keyOf (chunkSize cm) x y).
Proof.
  unfold alive. rewrite get_def.
  destruct (chunks cm !! _); [by eexists|done].
Qed.

Lemma is_one_alive cm x y : is_one (get cm x y) → alive cm x y.
Proof.
  unfold alive. destruct (get cm x y) as [|n]; simpl; [done|].
  destruct (Z.eqb_spec n 1) as [->|]; done.
Qed.

(** On a cell stored as 0 or 1 the code follows the rule. *)
Lemma nextState_rule g x y :
  get (grid g) x y = number 0 ∨ get (grid g) x y = number 1 →
  aliveNext g (x, y) ↔
  ruleAlive (bornRules g) (surviveRules g) (grid g) x y.
Proof.
  intros Hbit. rewrite nextState_alive. unfold ruleAlive, alive.
  by destruct Hbit as [-> | ->].
Qed.

(** Every call that returns has added one to the generation counter. *)
Lemma computeNextGen_generation g g' :
  computeNextGen g = Some g' → generation g' = generation g + 1.
Proof.
  unfold computeNextGen. intros Hnext.
  destruct (chunksToCheck (grid g)) as [toCheck|]; [|done]. simpl in Hnext.
  destruct (processChunks g _ _) as [[nextGrid newPop]|]; [|done].
  by injection Hnext as <-.
Qed.

(** ** One generation from a well-formed state *)

Section NextGeneration.
Context (g : GameOfLife) (Hwf : wf_game g).

(** [computeNextGen] in closed form. *)
Lemma computeNextGen_eq :
  ∃ toCheck, chunksToCheck (grid g) = Some toCheck ∧
    let cells := filter (aliveNext g)
                   (regionCells (gameChunkSize g) (elements toCheck)) in
    computeNextGen g =
      Some (mkGame (gameChunkSize g)
              (paint cells (newChunkManager (gameChunkSize g)))
              (bornRules g) (surviveRules g)
              (generation g + 1) (Z.of_nat (length cells))).
Proof.
  destruct Hwf as [Hsize Hgrid].
  destruct (chunksToCheck_spec _ Hgrid) as (toCheck & Hcheck & Hin).
  exists toCheck. split; [done|]. unfold computeNextGen.
  rewrite Hcheck. simpl.
  rewrite processChunks_cells, foldl_stepCell; [done|].
  apply Forall_forall.
  intros k (cx & cy & dx & dy & _ & _ & _ & ->)%elem_of_elements%Hin.
  auto with grid.
Qed.

Lemma computeNextGen_total : is_Some (computeNextGen g).
Proof. destruct computeNextGen_eq as (toCheck & _ & ->). by eexists. Qed.

Lemma evalRegion_keys : Forall key_ok (elements (evalRegion g)).
Proof.
  destruct Hwf as [_ Hgrid]. unfold evalRegion.
  destruct (chunksToCheck_spec _ Hgrid) as (toCheck & -> & Hin). simpl.
  apply Forall_forall.
  intros k (cx & cy & dx & dy & _ & _ & _ & ->)%elem_of_elements%Hin.
  apply key_ok_getChunkKey.
Qed.

Lemma computeNextGen_bornCells :
  computeNextGen g =
    Some (mkGame (gameChunkSize g)
            (paint (bornCells g) (newChunkManager (gameChunkSize g)))
            (bornRules g) (surviveRules g)
            (generation g + 1) (Z.of_nat (length (bornCells g)))).
Proof.
  destruct computeNextGen_eq as (toCheck & Hcheck & Heq).
  unfold bornCells, evalRegion. by rewrite Hcheck.
Qed.

(** The region is the stored chunks and their eight neighbours. *)
Lemma inRegion_spec x y :
  inRegion g x y ↔
  ∃ cx cy, is_Some (chunks (grid g) !! getChunkKey cx cy) ∧
    -1 ≤ chunkCoord x (gameChunkSize g) - cx ≤ 1 ∧
    -1 ≤ chunkCoord y (gameChunkSize g) - cy ≤ 1.
Proof.
  destruct Hwf as [Hsize Hgrid]. unfold inRegion, evalRegion.
  destruct (chunksToCheck_spec _ Hgrid) as (toCheck & -> & Hin). simpl.
  rewrite Hin. unfold keyOf. split.
  - intros (cx & cy & dx & dy & Hstored & Hdx & Hdy & [-> ->]%getChunkKey_inj).
    exists cx, cy. split; [done|lia].
  - intros (cx & cy & Hstored & Hdx & Hdy).
    exists cx, cy, (chunkCoord x (gameChunkSize g) - cx),
      (chunkCoord y (gameChunkSize g) - cy).
    split_and!; [done|lia..|f_equal; lia].
Qed.

Lemma elem_of_bornCells x y :
  (x, y) ∈ bornCells g ↔ inRegion g x y ∧ aliveNext g (x, y).
Proof.
  pose proof Hwf as [Hsize [Hpos _]]. unfold bornCells, inRegion.
  rewrite list_elem_of_filter, elem_of_regionCells, elem_of_elements;
    [tauto|by rewrite Hsize|by apply evalRegion_keys].
Qed.

Lemma NoDup_bornCells : NoDup (bornCells g).
Proof.
  pose proof Hwf as [Hsize [Hpos _]].
  apply NoDup_filter, NoDup_regionCells;
    [by rewrite Hsize|by apply evalRegion_keys|apply NoDup_elements].
Qed.

Lemma inRegion_near x y dx dy :
  -1 ≤ dx ≤ 1 → -1 ≤ dy ≤ 1 →
  alive (grid g) (x + dx) (y + dy) → inRegion g x y.
Proof.
  intros Hdx Hdy Halive. apply inRegion_spec.
  destruct Hwf as [Hsize [Hpos _]].
  apply alive_stored in Halive. rewrite <-Hsize in *.
  eexists _, _. split; [exact Halive|].
  pose proof (chunkCoord_near _ Hpos x dx Hdx).
  pose proof (chunkCoord_near _ Hpos y dy Hdy). lia.
Qed.

Lemma inRegion_alive x y : alive (grid g) x y → inRegion g x y.
Proof.
  intros Halive. apply (inRegion_near x y 0 0); [lia..|].
  by rewrite !Z.add_0_r.
Qed.

Lemma inRegion_neighbors x y :
  0 < liveNeighbors (grid g) x y → inRegion g x y.
Proof.
  intros (dx & dy & Hdx & Hdy & Halive)%liveNeighbors_pos.
  by apply (inRegion_near x y dx dy).
Qed.

(** When no cell is born without neighbours, every cell the code turns
    alive, and every cell the rule turns alive, is evaluated. *)
Lemma inRegion_aliveNext x y :
  0 ∉ bornRules g → aliveNext g (x, y) → inRegion g x y.
Proof.
  intros Hborn [[Hone _]|[_ Hin]]%nextState_alive.
  - by apply inRegion_alive, is_one_alive.
  - apply inRegion_neighbors.
    pose proof (liveNeighbors_range (grid g) x y).
    destruct (decide (liveNeighbors (grid g) x y = 0)) as [Heq|]; [|lia].
    by rewrite Heq in Hin.
Qed.

Lemma ruleAlive_inRegion x y :
  0 ∉ bornRules g →
  ruleAlive (bornRules g) (surviveRules g) (grid g) x y → inRegion g x y.
Proof.
  intros Hborn [[Halive _]|[_ Hin]].
  - by apply inRegion_alive.
  - apply inRegion_neighbors.
    pose proof (liveNeighbors_range (grid g) x y).
    destruct (decide (liveNeighbors (grid g) x y = 0)) as [Heq|]; [|lia].
    by rewrite Heq in Hin.
Qed.

Section Step.
Context (g' : GameOfLife) (Hnext : computeNextGen g = Some g').

Lemma computeNextGen_fields :
  gameChunkSize g' = gameChunkSize g ∧ bornRules g' = bornRules g ∧
  surviveRules g' = surviveRules g ∧ generation g' = generation g + 1.
Proof.
  rewrite computeNextGen_bornCells in Hnext. by injection Hnext as <-.
Qed.

Lemma computeNextGen_wf : wf_game g'.
Proof.
  rewrite computeNextGen_bornCells in Hnext. injection Hnext as <-.
  destruct Hwf as [Hsize [Hpos _]]. split; simpl.
  - by rewrite chunkSize_paint.
  - apply wf_grid_paint, wf_grid_new. by rewrite Hsize.
Qed.

Lemma computeNextGen_get x y :
  get (grid g') x y =
    if decide (inRegion g x y ∧ aliveNext g (x, y)) then number 1 else number 0.
Proof.
  rewrite computeNextGen_bornCells in Hnext. injection Hnext as <-. simpl.
  destruct Hwf as [Hsize [Hpos Hall]].
  rewrite get_paint, get_new by (apply wf_grid_new; by rewrite Hsize).
  apply decide_ext, elem_of_bornCells.
Qed.

(** An evaluated cell receives the state [nextState] computes. *)
Lemma computeNextGen_evaluated x y :
  inRegion g x y → get (grid g') x y = number (nextState g x y).
Proof.
  intros Hin. rewrite computeNextGen_get.
  destruct (nextState_bit g x y) as [Hbit|Hbit]; rewrite Hbit.
  - rewrite decide_False; [done|]. unfold aliveNext. simpl. intros [_ ?]. done.
  - rewrite decide_True; [done|]. split; [done|].
    unfold aliveNext. simpl. by rewrite Hbit.
Qed.

Lemma computeNextGen_dead_outside x y :
  ¬ inRegion g x y → get (grid g') x y = number 0.
Proof.
  intros Hout. rewrite computeNextGen_get.
  rewrite decide_False; [done|tauto].
Qed.

Lemma computeNextGen_get_rule x y :
  0 ∉ bornRules g →
  get (grid g') x y =
    if decide (aliveNext g (x, y)) then number 1 else number 0.
Proof.
  intros Hborn. rewrite computeNextGen_get.
  apply decide_ext. split; [tauto|].
  intros Halive. split; [|done]. by apply inRegion_aliveNext.
Qed.

(** The cells written are the live cells of the new grid. *)
Lemma alive_next_bornCells x y :
  alive (grid g') x y ↔ (x, y) ∈ bornCells g.
Proof.
  unfold alive. rewrite computeNextGen_get, elem_of_bornCells.
  by case_decide.
Qed.

(** The counter after a step is the size of any duplicate-free listing of
    the live cells of the new grid. *)
Lemma population_listing (cells : list (Z * Z)) :
  NoDup cells → (∀ x y, (x, y) ∈ cells ↔ alive (grid g') x y) →
  population g' = Z.of_nat (length cells).
Proof.
  intros Hdup Hcells.
  assert (population g' = Z.of_nat (length (bornCells g))) as ->.
  { rewrite computeNextGen_bornCells in Hnext. by injection Hnext as <-. }
  f_equal. apply Permutation_length.
  apply NoDup_Permutation; [by apply NoDup_bornCells|done|].
  intros [x y]. by rewrite Hcells, alive_next_bornCells.
Qed.

End Step.
End NextGeneration.

(** ** Counting the stored live cells *)

Lemma liveIn_make n : liveIn (Uint8Array.make n) = 0.
Proof.
  unfold liveIn, Uint8Array.make.
  induction (Z.to_nat n) as [|k IH]; [done|].
  simpl. rewrite filter_cons. by rewrite decide_False by (intros H; by apply H).
Qed.

Lemma liveIn_insert chunk i v :
  chunk !! i = Some 0 → v ≠ 0 → liveIn (<[i := v]> chunk) = liveIn chunk + 1.
Proof.
  unfold liveIn. intros Hi Hv. revert i Hi.
  induction chunk as [|w chunk IH]; intros i Hi; [done|].
  destruct i as [|i]; simpl in *.
  - injection Hi as ->. rewrite !filter_cons.
    rewrite decide_True by done. rewrite decide_False by (intros H; by apply H).
    simpl. lia.
  - rewrite !filter_cons. destruct (decide (w ≠ 0)); simpl; rewrite ?Nat2Z.inj_succ;
      specialize (IH i Hi); lia.
Qed.

Lemma liveCount_step (m : gmap string (list Z)) key chunk :
  map_fold (λ _ chunk n, liveIn chunk + n) 0 (<[key := chunk]> (delete key m)) =
    liveIn chunk + map_fold (λ _ chunk n, liveIn chunk + n) 0 (delete key m).
Proof.
  apply (map_fold_insert_L (λ _ chunk n, liveIn chunk + n));
    [intros; lia|apply lookup_delete_eq].
Qed.

Lemma liveCount_lookup (m : gmap string (list Z)) key chunk :
  m !! key = Some chunk →
  map_fold (λ _ chunk n, liveIn chunk + n) 0 m =
    liveIn chunk + map_fold (λ _ chunk n, liveIn chunk + n) 0 (delete key m).
Proof.
  intros Hkey.
  apply (map_fold_delete_L (λ _ chunk n, liveIn chunk + n)); [intros; lia|done].
Qed.

Lemma alter_lookup_insert (m : gmap string (list Z)) key chunk f :
  m !! key = Some chunk → alter f key m = <[key := f chunk]> (delete key m).
Proof.
  intros Hkey. rewrite insert_delete_eq.
  rewrite <-(insert_id m key chunk) at 1 by done. apply alter_insert_eq.
Qed.

(** Writing 1 into a dead cell raises the stored count by one. *)
Lemma liveCount_set cm x y :
  wf_grid cm → get cm x y = number 0 →
  liveCount (set cm x y 1) = liveCount cm + 1.
Proof.
  intros Hwf Hdead. pose proof Hwf as [Hsize Hall].
  pose proof (indexOf_range (chunkSize cm) Hsize x y) as Hidx.
  rewrite get_def in Hdead. unfold liveCount. rewrite set_def. simpl.
  unfold ensureChunk, Uint8Array.store.
  destruct (Z.ltb_spec (indexOf (chunkSize cm) x y) 0); [lia|].
  destruct (chunks cm !! keyOf (chunkSize cm) x y) as [chunk|] eqn:Hchunk.
  - apply Uint8ArrayFacts.load_zero in Hdead as [_ Hzero].
    rewrite (alter_lookup_insert _ _ chunk) by done.
    rewrite liveCount_step, (liveCount_lookup _ _ _ Hchunk).
    rewrite liveIn_insert by done. lia.
  - rewrite alter_insert_eq.
    rewrite <-(delete_id (chunks cm) (keyOf (chunkSize cm) x y)) by done.
    rewrite liveCount_step.
    rewrite liveIn_insert, liveIn_make; [lia| |done].
    apply lookup_replicate_2. lia.
Qed.

Lemma liveCount_new size : liveCount (newChunkManager size) = 0.
Proof. unfold liveCount. simpl. apply map_fold_empty. Qed.

(** Painting distinct dead cells raises the stored count by their
    number. *)
Lemma liveCount_paint cells cm :
  wf_grid cm → NoDup cells →
  Forall (λ c, get cm c.1 c.2 = number 0) cells →
  liveCount (paint cells cm) = liveCount cm + Z.of_nat (length cells).
Proof.
  intros Hwf Hdup. revert cm Hwf.
  induction Hdup as [|[x y] cells Hnotin Hdup IH]; intros cm Hwf Hdead; [simpl; lia|].
  apply Forall_cons in Hdead as [Hxy Hdead]. simpl in Hxy.
  change (paint ((x, y) :: cells) cm) with (paint cells (set cm x y 1)).
  rewrite IH, liveCount_set; [simpl length; lia|done..|auto with grid|].
  rewrite Forall_forall in Hdead. apply Forall_forall. intros [x' y'] Hin. simpl.
  rewrite get_set_ne; [by apply (Hdead (x', y'))|done|].
  intros [= -> ->]. done.
Qed.

Lemma populated_set cm x y :
  wf_grid cm → populated cm → populated (set cm x y 1).
Proof.
  intros Hwf Hpop. pose proof Hwf as [Hsize Hall].
  pose proof (indexOf_range (chunkSize cm) Hsize x y) as Hidx.
  rewrite set_def. unfold populated. simpl. intros key chunk.
  destruct (decide (keyOf (chunkSize cm) x y = key)) as [<-|Hne].
  - destruct (ensureChunk_cell cm Hwf x y) as (c & Hc & Hlen & _).
    rewrite lookup_alter_eq, Hc. intros [= <-].
    exists 1. split; [|done]. unfold Uint8Array.store.
    destruct (Z.ltb_spec (indexOf (chunkSize cm) x y) 0); [lia|].
    apply list_elem_of_lookup. exists (Z.to_nat (indexOf (chunkSize cm) x y)).
    apply list_lookup_insert_eq. lia.
  - rewrite lookup_alter_ne, ensureChunk_lookup_ne by done. apply Hpop.
Qed.

Lemma populated_paint cells cm :
  wf_grid cm → populated cm → populated (paint cells cm).
Proof.
  revert cm. induction cells as [|c cells IH]; intros cm Hwf Hpop; [done|].
  apply IH; [auto with grid|by apply populated_set].
Qed.

Lemma liveIn_erase chunk i v :
  chunk !! i = Some v → v ≠ 0 → liveIn (<[i := 0]> chunk) = liveIn chunk - 1.
Proof.
  unfold liveIn. intros Hi Hv. revert i Hi.
  induction chunk as [|w chunk IH]; intros i Hi; [done|].
  destruct i as [|i]; simpl in *.
  - injection Hi as ->. rewrite !filter_cons.
    rewrite decide_False by (intros H; by apply H). rewrite decide_True by done.
    simpl length. lia.
  - rewrite !filter_cons. specialize (IH i Hi).
    destruct (decide (w ≠ 0)); simpl length; lia.
Qed.

Lemma liveIn_zero chunk : Forall (λ v, v = 0) chunk → liveIn chunk = 0.
Proof.
  unfold liveIn. induction 1 as [|v chunk -> _ IH]; [done|].
  rewrite filter_cons. by rewrite decide_False by (intros H; by apply H).
Qed.

Lemma liveCount_erase cm x y :
  wf_grid cm → alive cm x y → liveCount (set cm x y 0) = liveCount cm - 1.
Proof.
  intros Hwf Halive. pose proof Hwf as [Hsize Hall].
  pose proof (indexOf_range (chunkSize cm) Hsize x y) as Hidx.
  unfold alive in Halive. rewrite get_def in Halive.
  unfold liveCount. rewrite set_def. simpl.
  unfold ensureChunk, Uint8Array.store.
  destruct (Z.ltb_spec (indexOf (chunkSize cm) x y) 0); [lia|].
  destruct (chunks cm !! keyOf (chunkSize cm) x y) as [chunk|] eqn:Hchunk; [|done].
  unfold Uint8Array.load in Halive.
  destruct (Z.ltb_spec (indexOf (chunkSize cm) x y) 0); [lia|].
  destruct (chunk !! Z.to_nat (indexOf (chunkSize cm) x y)) as [v|] eqn:Hv; [|done].
  simpl in Halive. destruct (Z.eqb_spec v 0) as [|Hne]; [done|].
  rewrite (alter_lookup_insert _ _ chunk) by done.
  rewrite liveCount_step, (liveCount_lookup _ _ _ Hchunk).
  change (0 mod 256) with 0. rewrite (liveIn_erase _ _ v) by done. lia.
Qed.

Lemma liveCount_dead cm :
  wf_grid cm → (∀ x y, ¬ alive cm x y) → liveCount cm = 0.
Proof.
  intros Hwf Hdead. pose proof Hwf as [Hsize Hall].
  assert (map_Forall (λ _ chunk, liveIn chunk = 0) (chunks cm)) as Hzero.
  { intros key chunk Hchunk. destruct (Hall _ _ Hchunk) as [Hkey Hlen].
    apply key_ok_inv in Hkey as (cx & cy & ->).
    apply liveIn_zero, Forall_lookup. intros i v Hv.
    pose proof (lookup_lt_Some _ _ _ Hv) as Hi. rewrite Hlen in Hi.
    set (size := chunkSize cm) in *. set (j := Z.of_nat i).
    assert (0 ≤ j < size * size) as Hj by lia.
    pose proof (Z.div_mod j size ltac:(lia)) as Hdiv.
    pose proof (Z.mod_pos_bound j size Hsize) as Hmod.
    assert (0 ≤ j / size < size) as Hquot.
    { split; [apply Z.div_pos; lia|apply Z.div_lt_upper_bound; lia]. }
    specialize (Hdead (cx * size + j mod size) (cy * size + j / size)).
    unfold alive in Hdead.
    rewrite (get_stored cm Hwf cx cy chunk) in Hdead by done.
    replace (j / size * chunkSize cm + j mod size) with j in Hdead
      by (unfold size in *; lia).
    unfold Uint8Array.load in Hdead.
    destruct (Z.ltb_spec j 0); [lia|].
    unfold j in Hdead. rewrite Nat2Z.id, Hv in Hdead. simpl in Hdead.
    destruct (Z.eqb_spec v 0); [done|]. by destruct Hdead. }
  unfold liveCount. revert Hzero.
  apply (map_fold_weak_ind
    (λ r m, map_Forall (λ _ chunk, liveIn chunk = 0) m → r = 0)); [done|].
  intros key chunk m r Hnone IH [Hchunk Hrest]%map_Forall_insert; [|done].
  rewrite Hchunk, IH; done.
Qed.

(** The stored count is the length of any duplicate-free listing of the
    live cells. *)
Lemma liveCount_listing cells cm :
  wf_grid cm → NoDup cells → (∀ x y, (x, y) ∈ cells ↔ alive cm x y) →
  liveCount cm = Z.of_nat (length cells).
Proof.
  intros Hwf Hdup. revert cm Hwf.
  induction Hdup as [|[x y] cells Hnotin Hdup IH]; intros cm Hwf Hcells.
  - apply liveCount_dead; [done|]. intros x y Halive.
    apply Hcells in Halive. by apply elem_of_nil in Halive.
  - assert (alive cm x y) as Hxy by (apply Hcells; left).
    pose proof (liveCount_erase cm x y Hwf Hxy) as Herase.
    rewrite (IH (set cm x y 0)) in Herase; [simpl length; lia|auto with grid|].
    intros x' y'. unfold alive. rewrite get_set by done.
    case_decide as Heq.
    + injection Heq as <- <-. simpl. by split.
    + fold (alive cm x' y'). rewrite <-Hcells, elem_of_cons. split; [tauto|].
      intros [?|?]; [congruence|done].
Qed.

(** ** One generation of a pattern *)

Lemma shows_alive cm f x y : shows cm f → alive cm x y = f x y.
Proof. intros Hf. unfold alive. rewrite Hf. by destruct (f x y). Qed.

Lemma shows_is_one cm f x y : shows cm f → is_one (get cm x y) = f x y.
Proof. intros Hf. rewrite Hf. by destruct (f x y). Qed.

Lemma liveNeighbors_shows cm f x y :
  shows cm f → liveNeighbors cm x y = countAround f x y.
Proof.
  intros Hf. unfold liveNeighbors, countAround. do 2 f_equal.
  apply list_filter_iff. intros [a b]. simpl. by rewrite (shows_alive cm f).
Qed.

(** When no cell is born without neighbours, [computeNextGen] takes a
    pattern to its next generation under the rule. *)
Lemma shows_step g g' f :
  wf_game g → 0 ∉ bornRules g → shows (grid g) f →
  computeNextGen g = Some g' →
  shows (grid g') (ruleStep (bornRules g) (surviveRules g) f).
Proof.
  intros Hwf Hborn Hf Hnext x y.
  rewrite (computeNextGen_get_rule g Hwf g') by done.
  unfold ruleStep.
  destruct (decide (aliveNext g (x, y))) as [Halive|Hdead].
  - apply nextState_alive in Halive.
    rewrite (shows_is_one _ f), (liveNeighbors_shows _ f) in Halive by done.
    destruct (f x y); simpl in Halive.
    + rewrite bool_decide_eq_true_2; [done|tauto].
    + rewrite bool_decide_eq_true_2; [done|tauto].
  - rewrite nextState_alive in Hdead.
    rewrite (shows_is_one _ f), (liveNeighbors_shows _ f) in Hdead by done.
    destruct (f x y); simpl in Hdead.
    + rewrite bool_decide_eq_false_2; [done|tauto].
    + rewrite bool_decide_eq_false_2; [done|tauto].
Qed.

Lemma countAround_sum f x y :
  countAround f x y =
    Z.b2z (f (x - 1) (y - 1)) + Z.b2z (f x (y - 1)) + Z.b2z (f (x + 1) (y - 1)) +
    Z.b2z (f (x - 1) y) + Z.b2z (f (x + 1) y) +
    Z.b2z (f (x - 1) (y + 1)) + Z.b2z (f x (y + 1)) + Z.b2z (f (x + 1) (y + 1)).
Proof.
  unfold countAround, adjacent. rewrite !filter_cons, filter_nil. simpl.
  destruct (f (x - 1) (y - 1)), (f x (y - 1)), (f (x + 1) (y - 1)),
    (f (x - 1) y), (f (x + 1) y),
    (f (x - 1) (y + 1)), (f x (y + 1)), (f (x + 1) (y + 1)); reflexivity.
Qed.

Lemma ruleStep_conway f x y :
  ruleStep {[3]} {[2; 3]} f x y =
    if f x y then (countAround f x y =? 2) || (countAround f x y =? 3)
    else countAround f x y =? 3.
Proof.
  unfold ruleStep. destruct (f x y).
  - case_bool_decide as Hin; rewrite elem_of_union, !elem_of_singleton in Hin.
    + by destruct Hin as [-> | ->].
    + symmetry. apply orb_false_intro; apply Z.eqb_neq; tauto.
  - case_bool_decide as Hin; rewrite elem_of_singleton in Hin.
    + by rewrite Hin.
    + symmetry. by apply Z.eqb_neq.
Qed.

Lemma shows_ext cm f f' : (∀ x y, f x y = f' x y) → shows cm f → shows cm f'.
Proof. intros Heq Hf x y. by rewrite <-Heq. Qed.

(** ** The blinker *)

Section Blinker.
Context (x y : Z).

(** Under born = {3}, survive = {2,3} the horizontal segment steps to
    the vertical one, and back. *)
Lemma conway_hseg a b :
  ruleStep {[3]} {[2; 3]} (hseg x y) a b = vseg x y a b.
Proof.
  rewrite ruleStep_conway, countAround_sum. unfold hseg, vseg.
  assert (a ≤ x - 3 ∨ a = x - 2 ∨ a = x - 1 ∨ a = x ∨ a = x + 1 ∨ a = x + 2 ∨
          x + 3 ≤ a) as Ha by lia.
  assert (b ≤ y - 2 ∨ b = y - 1 ∨ b = y ∨ b = y + 1 ∨ y + 2 ≤ b) as Hb by lia.
  destruct Ha as [Ha|[Ha|[Ha|[Ha|[Ha|[Ha|Ha]]]]]];
    destruct Hb as [Hb|[Hb|[Hb|[Hb|Hb]]]];
    settle_comparisons; reflexivity.
Qed.

Lemma conway_vseg a b :
  ruleStep {[3]} {[2; 3]} (vseg x y) a b = hseg x y a b.
Proof.
  rewrite ruleStep_conway, countAround_sum. unfold hseg, vseg.
  assert (a ≤ x - 2 ∨ a = x - 1 ∨ a = x ∨ a = x + 1 ∨ x + 2 ≤ a) as Ha by lia.
  assert (b ≤ y - 3 ∨ b = y - 2 ∨ b = y - 1 ∨ b = y ∨ b = y + 1 ∨ b = y + 2 ∨
          y + 3 ≤ b) as Hb by lia.
  destruct Ha as [Ha|[Ha|[Ha|[Ha|Ha]]]];
    destruct Hb as [Hb|[Hb|[Hb|[Hb|[Hb|[Hb|Hb]]]]]];
    settle_comparisons; reflexivity.
Qed.

Lemma elem_of_hseg a b :
  hseg x y a b ↔ (a, b) ∈ [(x - 1, y); (x, y); (x + 1, y)].
Proof.
  unfold hseg. rewrite !andb_True, !elem_of_cons, elem_of_nil.
  rewrite Is_true_true, Z.eqb_eq, !Is_true_true, !Z.leb_le. split.
  - intros [[-> ?] ?].
    assert (a = x - 1 ∨ a = x ∨ a = x + 1) as [->|[->| ->]] by lia; tauto.
  - intros [[= -> ->]|[[= -> ->]|[[= -> ->]|[]]]]; lia.
Qed.

Lemma elem_of_vseg a b :
  vseg x y a b ↔ (a, b) ∈ [(x, y - 1); (x, y); (x, y + 1)].
Proof.
  unfold vseg. rewrite !andb_True, !elem_of_cons, elem_of_nil.
  rewrite Is_true_true, Z.eqb_eq, !Is_true_true, !Z.leb_le. split.
  - intros [[-> ?] ?].
    assert (b = y - 1 ∨ b = y ∨ b = y + 1) as [->|[->| ->]] by lia; tauto.
  - intros [[= -> ->]|[[= -> ->]|[[= -> ->]|[]]]]; lia.
Qed.

Lemma NoDup_hseg : NoDup [(x - 1, y); (x, y); (x + 1, y)].
Proof.
  repeat (apply NoDup_cons; split); [..|apply NoDup_nil_2];
    rewrite ?elem_of_cons, elem_of_nil; intros H;
    repeat destruct H as [H|H]; try done; injection H; lia.
Qed.

Lemma NoDup_vseg : NoDup [(x, y - 1); (x, y); (x, y + 1)].
Proof.
  repeat (apply NoDup_cons; split); [..|apply NoDup_nil_2];
    rewrite ?elem_of_cons, elem_of_nil; intros H;
    repeat destruct H as [H|H]; try done; injection H; lia.
Qed.

End Blinker.

Lemma shows_listing cm f (cells : list (Z * Z)) :
  shows cm f → (∀ x y, f x y ↔ (x, y) ∈ cells) →
  ∀ x y, (x, y) ∈ cells ↔ alive cm x y.
Proof.
  intros Hf Hcells x y. by rewrite (shows_alive cm f), Hcells.
Qed.

Lemma shows_paint (cells : list (Z * Z)) (f : Z → Z → bool) size :
  0 < size → (∀ x y, f x y ↔ (x, y) ∈ cells) →
  shows (paint cells (newChunkManager size)) f.
Proof.
  intros Hsize Hcells x y.
  rewrite get_paint, get_new by auto with grid.
  specialize (Hcells x y). case_decide; destruct (f x y); simpl in *; tauto.
Qed.

Lemma conway_step g g' f f' :
  wf_game g → bornRules g = {[3]} → surviveRules g = {[2; 3]} →
  (∀ x y, ruleStep {[3]} {[2; 3]} f x y = f' x y) →
  shows (grid g) f → computeNextGen g = Some g' →
  shows (grid g') f'.
Proof.
  intros Hwf Hborn Hsurvive Hstep Hf Hnext.
  apply (shows_ext _ (ruleStep (bornRules g) (surviveRules g) f)).
  - by rewrite Hborn, Hsurvive.
  - apply (shows_step g); [done| |done..].
    rewrite Hborn. by intros [=]%elem_of_singleton.
Qed.

(** ** Rule sets *)

Lemma elem_of_rule_set (l : list Z) (n : Z) :
  n ∈ foldl (λ acc n, {[n]} ∪ acc) (∅ : gset Z) l ↔ n ∈ l.
Proof.
  assert (∀ acc : gset Z,
    n ∈ foldl (λ acc n, {[n]} ∪ acc) acc l ↔ n ∈ acc ∨ n ∈ l) as Hgen.
  { induction l as [|m l IH]; intros acc; simpl.
    - rewrite elem_of_nil. tauto.
    - rewrite IH, elem_of_union, elem_of_singleton, elem_of_cons. tauto. }
  rewrite Hgen, elem_of_empty. tauto.
Qed.

(** No preset lets a cell be born without neighbours, and every listed
    count is a possible neighbour count. *)
Lemma RULES_counts :
  Forall (λ entry,
    Forall (λ n, 1 ≤ n ≤ 8) (b entry.2) ∧ Forall (λ n, 0 ≤ n ≤ 8) (s entry.2))
    RULES.
Proof. compute_done. Qed.

Lemma applyRule_preset_born name rule g :
  (name, rule) ∈ RULES → 0 ∉ bornRules (applyRule rule g).
Proof.
  intros Hin. pose proof RULES_counts as Hall.
  rewrite Forall_forall in Hall. destruct (Hall _ Hin) as [Hborn _].
  simpl. rewrite elem_of_rule_set. intros Hzero.
  rewrite Forall_forall in Hborn. specialize (Hborn 0 Hzero). simpl in Hborn. lia.
Qed.

(** * The claims *)

(** C1, as stated, fails: with 0 in the born set and both sets within
    [0,8], a dead cell without live neighbours has an alive rule-defined
    next state, yet the evaluation region of the empty grid is empty. *)
Lemma birth_without_neighbors_escapes_region :
  ¬ (∀ g,
       wf_game g →
       (∀ n, n ∈ bornRules g → 0 ≤ n ≤ 8) →
       (∀ n, n ∈ surviveRules g → 0 ≤ n ≤ 8) →
       regionSound g).
Proof.
  intros Hclaim.
  assert (regionSound bornWithoutNeighbors) as (g' & _ & Hsound).
  { apply Hclaim; [compute_done| |]; simpl.
    - intros n ->%elem_of_singleton. lia.
    - intros n [->%elem_of_singleton| ->%elem_of_singleton]%elem_of_union; lia. }
  destruct (Hsound 0 0) as (_ & _ & Hrule & _).
  assert (¬ inRegion bornWithoutNeighbors 0 0) as Hout by compute_done.
  apply Hout, Hrule. compute_done.
Qed.

(** C1, amended: when 0 is not in the born set, the evaluation region
    (the stored chunks and their 8 neighbours) holds every live cell and
    every cell whose rule-defined next state is alive; a cell outside it
    is dead in the destination grid, and the rule agrees. *)
Theorem evaluation_region_sound g :
  wf_game g → 0 ∉ bornRules g → regionSound g.
Proof.
  intros Hwf Hborn.
  destruct (computeNextGen_total g Hwf) as [g' Hnext].
  exists g'. split; [done|]. intros x y. split_and!.
  - by apply inRegion_spec.
  - by apply inRegion_alive.
  - by apply ruleAlive_inRegion.
  - intros Hout. split; [by apply (computeNextGen_dead_outside g)|].
    intros Hrule. by apply Hout, ruleAlive_inRegion.
Qed.

Lemma evaluation_region_sound_witness : regionSound blinkerAtOrigin.
Proof.
  apply (evaluation_region_sound blinkerAtOrigin); compute_done.
Defined.

(** C2: the code at a cell stored with state 2. The cell is alive and has
    2 live neighbours, so under born = {3}, survive = {2,3} the rule keeps it
    alive; [nextState] tests [state === 1], takes the born branch and
    leaves the cell dead in the destination grid. *)
Theorem state_two_cell_dies :
  wf_game stateTwoCorner ∧
  inRegion stateTwoCorner 0 0 ∧
  get (grid stateTwoCorner) 0 0 = number 2 ∧
  liveNeighbors (grid stateTwoCorner) 0 0 = 2 ∧
  ruleAlive (bornRules stateTwoCorner) (surviveRules stateTwoCorner)
    (grid stateTwoCorner) 0 0 ∧
  nextState stateTwoCorner 0 0 = 0 ∧
  (λ g', get (grid g') 0 0) <$> computeNextGen stateTwoCorner
    = Some (number 0).
Proof. split_and!; compute_done. Qed.

(** C3, as stated, fails: a state outside 0..255 is not read back; the
    array stores it modulo 256. *)
Lemma state_256_reads_back_zero :
  ¬ (∀ cm x y state, wf_grid cm → get (set cm x y state) x y = number state).
Proof.
  intros Hclaim.
  specialize (Hclaim (newChunkManager 32) 0 0 256 (wf_grid_new 32 eq_refl)).
  vm_compute in Hclaim. discriminate.
Qed.

(** C3, amended: for all integers x and y, of either sign, and every
    state in 0..255, [set(x, y, state)] followed by [get(x, y)] returns
    that state. *)
Theorem set_then_get_byte cm x y state :
  wf_grid cm → 0 ≤ state < 256 →
  get (set cm x y state) x y = number state.
Proof.
  intros Hwf Hstate. rewrite get_set_eq by done.
  by rewrite Z.mod_small.
Qed.

Lemma set_then_get_byte_witness :
  get (set (newChunkManager 32) (-5) 7 200) (-5) 7 = number 200.
Proof.
  apply (set_then_get_byte (newChunkManager 32) (-5) 7 200); [compute_done|lia].
Defined.

(** C4: chunk coordinates are floor quotients and local offsets floored
    remainders; with chunk size 32 the cells (31,0) and (32,0) land in the
    adjacent chunks (0,0) and (1,0) and read back independently, and
    (-1,0) lands in chunk (-1,0) at local offset (31,0), leaving chunk
    (0,0) and its cells as they were. *)
Theorem chunk_boundary_continuity cm s1 s2 :
  wf_grid cm → chunkSize cm = 32 → 0 ≤ s1 < 256 → 0 ≤ s2 < 256 →
  (∀ x size, 0 < size →
     chunkCoord x size = x / size ∧ localOffset x size = x mod size ∧
     0 ≤ localOffset x size < size) ∧
  (getChunkKey 0 0 = "0,0" ∧ getChunkKey 1 0 = "1,0" ∧
   getChunkKey (-1) 0 = "-1,0") ∧
  (landsIn cm (set cm 31 0 s1) 0 0 ∧
   landsIn (set cm 31 0 s1) (set (set cm 31 0 s1) 32 0 s2) 1 0 ∧
   get (set (set cm 31 0 s1) 32 0 s2) 31 0 = number s1 ∧
   get (set (set cm 31 0 s1) 32 0 s2) 32 0 = number s2) ∧
  (landsIn cm (set cm (-1) 0 s1) (-1) 0 ∧
   (localOffset (-1) 32, localOffset 0 32) = (31, 0) ∧
   (∃ chunk, chunks (set cm (-1) 0 s1) !! getChunkKey (-1) 0 = Some chunk ∧
      Uint8Array.load chunk (0 * 32 + 31) = number s1) ∧
   chunks (set cm (-1) 0 s1) !! getChunkKey 0 0 = chunks cm !! getChunkKey 0 0 ∧
   ∀ x y, keyOf 32 x y = getChunkKey 0 0 →
     get (set cm (-1) 0 s1) x y = get cm x y).
Proof.
  intros Hwf Hsize Hs1 Hs2.
  pose proof (wf_grid_set cm Hwf 31 0 s1) as Hwf1.
  pose proof (set_landsIn cm Hwf 31 0 s1) as Hland0.
  pose proof (set_landsIn _ Hwf1 32 0 s2) as Hland1.
  pose proof (set_landsIn cm Hwf (-1) 0 s1) as Hland.
  rewrite chunkSize_set in Hland1. rewrite Hsize in Hland0, Hland1, Hland.
  split; [|split; [|split]].
  - intros x size Hpos. pose proof (localOffset_range size Hpos x).
    split; [done|]. split; [by apply localOffset_mod|done].
  - done.
  - split; [exact Hland0|]. split; [exact Hland1|]. split.
    + rewrite get_set_ne, get_set_byte by done. done.
    + by rewrite get_set_byte.
  - split; [exact Hland|]. split; [done|]. split; [|split].
    + destruct (set_stored cm Hwf (-1) 0 s1) as (chunk & Hchunk & Hload).
      rewrite Hsize in Hchunk, Hload. exists chunk. split; [done|].
      by rewrite Z.mod_small in Hload.
    + destruct Hland as [_ Hother]. by apply Hother.
    + intros x y Hkey. apply get_set_ne; [done|].
      intros [= <- <-]. done.
Qed.

Lemma chunk_boundary_continuity_witness :
  (∀ x size, 0 < size →
     chunkCoord x size = x / size ∧ localOffset x size = x mod size ∧
     0 ≤ localOffset x size < size) ∧
  (getChunkKey 0 0 = "0,0" ∧ getChunkKey 1 0 = "1,0" ∧
   getChunkKey (-1) 0 = "-1,0") ∧
  (landsIn (newChunkManager 32) (set (newChunkManager 32) 31 0 1) 0 0 ∧
   landsIn (set (newChunkManager 32) 31 0 1)
     (set (set (newChunkManager 32) 31 0 1) 32 0 1) 1 0 ∧
   get (set (set (newChunkManager 32) 31 0 1) 32 0 1) 31 0 = number 1 ∧
   get (set (set (newChunkManager 32) 31 0 1) 32 0 1) 32 0 = number 1) ∧
  (landsIn (newChunkManager 32) (set (newChunkManager 32) (-1) 0 1) (-1) 0 ∧
   (localOffset (-1) 32, localOffset 0 32) = (31, 0) ∧
   (∃ chunk,
      chunks (set (newChunkManager 32) (-1) 0 1) !! getChunkKey (-1) 0 = Some chunk ∧
      Uint8Array.load chunk (0 * 32 + 31) = number 1) ∧
   chunks (set (newChunkManager 32) (-1) 0 1) !! getChunkKey 0 0
     = chunks (newChunkManager 32) !! getChunkKey 0 0 ∧
   ∀ x y, keyOf 32 x y = getChunkKey 0 0 →
     get (set (newChunkManager 32) (-1) 0 1) x y = get (newChunkManager 32) x y).
Proof.
  apply (chunk_boundary_continuity (newChunkManager 32) 1 1);
    [compute_done|reflexivity|lia|lia].
Defined.

(** C5: [getCell] returns 0 when the owning chunk is absent, and any call
    leaves the receiver (chunk map and chunk contents) as it was. *)
Theorem getCell_absent_zero_and_readonly cm x y :
  (getCell x y cm).2 = cm ∧
  ((getChunk (chunkCoord x (chunkSize cm)) (chunkCoord y (chunkSize cm)) cm).1 = None →
   (getCell x y cm).1 = number 0).
Proof.
  split; [apply getCell_state|].
  unfold getChunk, getCell. run_M. by intros ->.
Qed.

Lemma getCell_absent_zero_and_readonly_witness :
  (getCell 40 (-3) (grid blinkerAtOrigin)).2 = grid blinkerAtOrigin ∧
  (getCell 40 (-3) (grid blinkerAtOrigin)).1 = number 0.
Proof.
  destruct (getCell_absent_zero_and_readonly (grid blinkerAtOrigin) 40 (-3))
    as [Hstate Hzero].
  split; [exact Hstate|]. apply Hzero. reflexivity.
Defined.

(** C6: from generation G, [n] calls to [computeNextGen] leave the
    counter at G + n whatever the grid holds, and on a well-formed state,
    the empty grid included, all [n] calls return. *)
Theorem generation_after_n_calls n g :
  (∀ g', advance n g = Some g' → generation g' = generation g + Z.of_nat n) ∧
  (wf_game g → is_Some (advance n g)).
Proof.
  split.
  - revert g. induction n as [|n IH]; intros g g' Hadv; simpl in Hadv.
    + injection Hadv as <-. lia.
    + destruct (computeNextGen g) as [g1|] eqn:Hnext; [|done]. simpl in Hadv.
      rewrite (IH g1 g' Hadv), (computeNextGen_generation g g1 Hnext). lia.
  - revert g. induction n as [|n IH]; intros g Hwf; simpl; [by eexists|].
    destruct (computeNextGen_total g Hwf) as [g1 Hnext]. rewrite Hnext. simpl.
    by apply IH, (computeNextGen_wf g).
Qed.

Lemma generation_after_n_calls_witness :
  ∃ g', advance 4 newGame = Some g' ∧
    generation g' = generation newGame + Z.of_nat 4.
Proof.
  destruct (generation_after_n_calls 4 newGame) as [Hgen Hsome].
  destruct Hsome as [g' Hadv]; [compute_done|].
  exists g'. split; [exact Hadv|]. by apply Hgen.
Defined.

(** C7: after [computeNextGen] the population counter is the number of
    live cells stored in the new grid: the cells written form a list
    without repetition that holds exactly the live cells of the new grid,
    and the counter is its length. *)
Theorem population_is_live_count g :
  wf_game g →
  ∃ g', computeNextGen g = Some g' ∧
    population g' = liveCount (grid g') ∧
    ∃ cells, NoDup cells ∧
      (∀ x y, (x, y) ∈ cells ↔ alive (grid g') x y) ∧
      population g' = Z.of_nat (length cells).
Proof.
  intros Hwf. pose proof Hwf as [Hsize [Hpos _]]. rewrite <-Hsize in Hpos.
  destruct (computeNextGen_total g Hwf) as [g' Hnext].
  exists g'. split; [done|].
  pose proof (NoDup_bornCells g Hwf) as Hdup.
  assert (∀ x y, (x, y) ∈ bornCells g ↔ alive (grid g') x y) as Hcells.
  { intros x y. symmetry. by apply alive_next_bornCells. }
  pose proof (population_listing g Hwf g' Hnext _ Hdup Hcells) as Hpop.
  split; [|by exists (bornCells g)].
  rewrite Hpop. rewrite computeNextGen_bornCells in Hnext by done.
  injection Hnext as <-. simpl.
  rewrite liveCount_paint, liveCount_new; [lia|auto with grid|done|].
  apply Forall_forall. intros c _. apply get_new.
Qed.

Lemma population_is_live_count_witness :
  ∃ g', computeNextGen blinkerAtOrigin = Some g' ∧
    population g' = liveCount (grid g') ∧
    ∃ cells, NoDup cells ∧
      (∀ x y, (x, y) ∈ cells ↔ alive (grid g') x y) ∧
      population g' = Z.of_nat (length cells).
Proof.
  apply (population_is_live_count blinkerAtOrigin). compute_done.
Defined.

(** C8: [applyRule] leaves grid, generation and population as they were
    and replaces both rule sets by the members of the new rule, whatever
    the sets held before; the next [computeNextGen] therefore runs as from
    a state built with the new sets. *)
Theorem applyRule_replaces_rules_only rule g :
  grid (applyRule rule g) = grid g ∧
  generation (applyRule rule g) = generation g ∧
  population (applyRule rule g) = population g ∧
  gameChunkSize (applyRule rule g) = gameChunkSize g ∧
  (∀ n, n ∈ bornRules (applyRule rule g) ↔ n ∈ b rule) ∧
  (∀ n, n ∈ surviveRules (applyRule rule g) ↔ n ∈ s rule) ∧
  (∀ born survive,
     applyRule rule (mkGame (gameChunkSize g) (grid g) born survive
                       (generation g) (population g)) = applyRule rule g) ∧
  computeNextGen (applyRule rule g) =
    computeNextGen (mkGame (gameChunkSize g) (grid g)
                      (list_to_set (b rule)) (list_to_set (s rule))
                      (generation g) (population g)).
Proof.
  split_and!; try done.
  - intros n. apply elem_of_rule_set.
  - intros n. apply elem_of_rule_set.
  - f_equal. unfold applyRule. f_equal; apply set_eq; intros n;
      rewrite elem_of_rule_set, elem_of_list_to_set; done.
Qed.

(** C9: under born = {3}, survive = {2,3}, a grid that holds exactly the
    horizontal segment of three cells centred at [(x, y)] holds exactly
    the vertical segment with that centre after one [computeNextGen] and
    the horizontal one again after two; the generation counter grows by
    one per call, and the population is 3 at every generation. *)
Theorem blinker_period_two g x y :
  wf_game g → bornRules g = {[3]} → surviveRules g = {[2; 3]} →
  shows (grid g) (hseg x y) →
  ∃ g1 g2,
    computeNextGen g = Some g1 ∧ computeNextGen g1 = Some g2 ∧
    shows (grid g1) (vseg x y) ∧
    shows (grid g2) (hseg x y) ∧
    (∀ a b, get (grid g2) a b = get (grid g) a b) ∧
    generation g1 = generation g + 1 ∧ generation g2 = generation g + 2 ∧
    liveCount (grid g) = 3 ∧
    population g1 = 3 ∧ liveCount (grid g1) = 3 ∧
    population g2 = 3 ∧ liveCount (grid g2) = 3.
Proof.
  intros Hwf Hborn Hsurvive Hh.
  destruct (computeNextGen_total g Hwf) as [g1 Hnext1].
  pose proof (computeNextGen_wf g Hwf g1 Hnext1) as Hwf1.
  destruct (computeNextGen_fields g Hwf g1 Hnext1) as (_ & Hborn1 & Hsurvive1 & Hgen1).
  destruct (computeNextGen_total g1 Hwf1) as [g2 Hnext2].
  pose proof (computeNextGen_wf g1 Hwf1 g2 Hnext2) as Hwf2.
  destruct (computeNextGen_fields g1 Hwf1 g2 Hnext2) as (_ & _ & _ & Hgen2).
  rewrite Hborn in Hborn1. rewrite Hsurvive in Hsurvive1.
  pose proof (conway_step g g1 _ _ Hwf Hborn Hsurvive (conway_hseg x y) Hh Hnext1)
    as Hv.
  pose proof (conway_step g1 g2 _ _ Hwf1 Hborn1 Hsurvive1 (conway_vseg x y) Hv Hnext2)
    as Hh2.
  pose proof (shows_listing _ _ _ Hh (elem_of_hseg x y)) as Hcells.
  pose proof (shows_listing _ _ _ Hv (elem_of_vseg x y)) as Hcells1.
  pose proof (shows_listing _ _ _ Hh2 (elem_of_hseg x y)) as Hcells2.
  exists g1, g2. split_and!; try done.
  - intros a b. by rewrite Hh, Hh2.
  - lia.
  - by rewrite (liveCount_listing _ _ (proj2 Hwf) (NoDup_hseg x y) Hcells).
  - by rewrite (population_listing g Hwf g1 Hnext1 _ (NoDup_vseg x y) Hcells1).
  - by rewrite (liveCount_listing _ _ (proj2 Hwf1) (NoDup_vseg x y) Hcells1).
  - by rewrite (population_listing g1 Hwf1 g2 Hnext2 _ (NoDup_hseg x y) Hcells2).
  - by rewrite (liveCount_listing _ _ (proj2 Hwf2) (NoDup_hseg x y) Hcells2).
Qed.

Lemma blinker_period_two_witness :
  ∃ g1 g2,
    computeNextGen blinkerAtOrigin = Some g1 ∧ computeNextGen g1 = Some g2 ∧
    shows (grid g1) (vseg 0 0) ∧
    shows (grid g2) (hseg 0 0) ∧
    (∀ a b, get (grid g2) a b = get (grid blinkerAtOrigin) a b) ∧
    generation g1 = generation blinkerAtOrigin + 1 ∧
    generation g2 = generation blinkerAtOrigin + 2 ∧
    liveCount (grid blinkerAtOrigin) = 3 ∧
    population g1 = 3 ∧ liveCount (grid g1) = 3 ∧
    population g2 = 3 ∧ liveCount (grid g2) = 3.
Proof.
  apply (blinker_period_two blinkerAtOrigin 0 0);
    [compute_done|reflexivity|reflexivity|].
  apply (shows_paint [(0 - 1, 0); (0, 0); (0 + 1, 0)] (hseg 0 0) 32);
    [lia|apply elem_of_hseg].
Defined.

(** C10: every chunk stored in the grid built by [computeNextGen] holds a
    live cell. *)
Theorem next_grid_chunks_populated g :
  wf_game g →
  ∃ g', computeNextGen g = Some g' ∧ populated (grid g').
Proof.
  intros Hwf. pose proof Hwf as [Hsize [Hpos _]]. rewrite <-Hsize in Hpos.
  eexists. split; [by apply computeNextGen_bornCells|]. simpl.
  apply populated_paint; [auto with grid|].
  unfold populated. simpl. apply map_Forall_empty.
Qed.

Lemma next_grid_chunks_populated_witness :
  ∃ g', computeNextGen blinkerAtOrigin = Some g' ∧ populated (grid g').
Proof.
  apply (next_grid_chunks_populated blinkerAtOrigin). compute_done.
Defined.

(** * Further properties *)

(** ** ChunkManager *)

Lemma getOrCreateChunk_def cx cy cm :
  getOrCreateChunk cx cy cm =
    (getChunkKey cx cy,
     mkChunkManager (chunkSize cm) (ensureChunk cm (getChunkKey cx cy))).
Proof.
  unfold getOrCreateChunk, ensureChunk. run_M.
  destruct (chunks cm !! _) eqn:Hchunk; [|done]. by destruct cm.
Qed.

Lemma wf_grid_getOrCreateChunk cx cy cm :
  wf_grid cm → wf_grid (getOrCreateChunk cx cy cm).2.
Proof.
  intros Hwf. pose proof Hwf as [Hsize Hall].
  rewrite getOrCreateChunk_def. split; [done|]. simpl. intros key chunk.
  destruct (decide (getChunkKey cx cy = key)) as [<-|Hne].
  - destruct (ensureChunk_lookup cm Hwf (getChunkKey cx cy))
      as (c & Hc & Hlen & _); [auto with grid|].
    rewrite Hc. intros [= <-]. split; [auto with grid|done].
  - rewrite ensureChunk_lookup_ne by done. apply Hall.
Qed.

Lemma byteGrid_ensureChunk cm key :
  byteGrid cm →
  map_Forall (λ _ chunk, Forall (λ v, 0 ≤ v < 256) chunk) (ensureChunk cm key).
Proof.
  intros Hbyte. unfold ensureChunk.
  destruct (chunks cm !! key) eqn:Hchunk; [done|].
  apply map_Forall_insert; [done|]. split; [|done].
  unfold Uint8Array.make. apply Forall_replicate. lia.
Qed.

Lemma byteGrid_set cm x y state : byteGrid cm → byteGrid (set cm x y state).
Proof.
  intros Hbyte. rewrite set_def. unfold byteGrid. simpl.
  pose proof (byteGrid_ensureChunk cm (keyOf (chunkSize cm) x y) Hbyte) as Hall.
  intros key chunk [[<- (c & Hc & ->)]|[_ Hc]]%lookup_alter_Some.
  - unfold Uint8Array.store. case_match; [by apply (Hall _ _ Hc)|].
    apply Forall_insert; [by apply (Hall _ _ Hc)|].
    by apply Z.mod_pos_bound.
  - by apply (Hall _ _ Hc).
Qed.

Lemma get_getOrCreateChunk cx cy cm x y :
  wf_grid cm → get (getOrCreateChunk cx cy cm).2 x y = get cm x y.
Proof.
  intros Hwf. pose proof Hwf as [Hsize _].
  rewrite getOrCreateChunk_def, !get_def. simpl.
  destruct (decide (getChunkKey cx cy = keyOf (chunkSize cm) x y)) as [Hkey|Hkey].
  - destruct (ensureChunk_lookup cm Hwf (getChunkKey cx cy))
      as (c & Hc & _ & Hnew & Hold); [auto with grid|].
    rewrite <-Hkey, Hc.
    destruct (chunks cm !! getChunkKey cx cy) as [c0|] eqn:Hc0.
    + by rewrite (Hold c0).
    + rewrite Hnew by done. apply Uint8ArrayFacts.load_make.
      by apply indexOf_range.
  - by rewrite ensureChunk_lookup_ne.
Qed.

(** X1: a chunk key parses back to the chunk coordinates it was rendered
    from, so distinct chunks never share a key. *)
Theorem chunk_key_round_trip cx cy :
  Key.parse (getChunkKey cx cy) = Some (cx, cy) ∧
  ∀ cx' cy', getChunkKey cx cy = getChunkKey cx' cy' → cx = cx' ∧ cy = cy'.
Proof.
  split; [apply parse_getChunkKey|].
  intros cx' cy'. apply getChunkKey_inj.
Qed.

(** X2: for a positive chunk size every cell has a storage slot of its
    own: its index lies inside the chunk array, the cell is recovered from
    chunk coordinate and local offset, and two cells with the same key and
    the same index are one cell. *)
Theorem cell_slot_unique size x y :
  0 < size →
  0 ≤ indexOf size x y < size * size ∧
  x = chunkCoord x size * size + localOffset x size ∧
  y = chunkCoord y size * size + localOffset y size ∧
  ∀ x' y', keyOf size x y = keyOf size x' y' →
    indexOf size x y = indexOf size x' y' → x = x' ∧ y = y'.
Proof.
  intros Hsize. split_and!.
  - by apply indexOf_range.
  - by apply indexOf_range.
  - by apply chunk_decompose.
  - by apply chunk_decompose.
  - intros x' y'. by apply cell_inj.
Qed.

Lemma cell_slot_unique_witness :
  0 ≤ indexOf 32 (-1) (-33) < 32 * 32 ∧
  -1 = chunkCoord (-1) 32 * 32 + localOffset (-1) 32 ∧
  -33 = chunkCoord (-33) 32 * 32 + localOffset (-33) 32 ∧
  ∀ x' y', keyOf 32 (-1) (-33) = keyOf 32 x' y' →
    indexOf 32 (-1) (-33) = indexOf 32 x' y' → -1 = x' ∧ -33 = y'.
Proof. apply (cell_slot_unique 32 (-1) (-33)). lia. Defined.

(** X3: after [setCell(x, y, state)] the written cell reads the state
    reduced modulo 256 and every other cell of the plane reads what it read
    before. *)
Theorem setCell_reads cm x y state x' y' :
  wf_grid cm →
  get (set cm x y state) x' y' =
    if decide ((x, y) = (x', y')) then number (state mod 256) else get cm x' y'.
Proof.
  intros Hwf. case_decide as Heq.
  - injection Heq as <- <-. by apply get_set_eq.
  - by apply get_set_ne.
Qed.

Lemma setCell_reads_witness :
  get (set (newChunkManager 32) (-1) 0 257) 31 0 =
    if decide ((-1, 0) = (31, 0)) then number (257 mod 256)
    else get (newChunkManager 32) 31 0.
Proof.
  apply (setCell_reads (newChunkManager 32) (-1) 0 257 31 0). compute_done.
Defined.

Lemma built_facts size cm :
  0 < size → built size cm →
  wf_grid cm ∧ byteGrid cm ∧ chunkSize cm = size.
Proof.
  intros Hsize. induction 1 as [|cm x y state _ IH|cm x y _ IH|cm cx cy _ IH
                              |cm cx cy _ IH|cm _ IH].
  - split_and!; [auto with grid| |done]. apply map_Forall_empty.
  - destruct IH as (Hwf & Hbyte & Hcs). fold (set cm x y state).
    split_and!; [auto with grid|by apply byteGrid_set|by rewrite chunkSize_set].
  - by rewrite getCell_state.
  - done.
  - destruct IH as (Hwf & Hbyte & Hcs).
    split_and!; [by apply wf_grid_getOrCreateChunk| |by rewrite getOrCreateChunk_def].
    rewrite getOrCreateChunk_def. by apply byteGrid_ensureChunk.
  - destruct IH as (Hwf & Hbyte & Hcs). destruct Hwf as [Hpos _].
    split_and!; [|apply map_Forall_empty|done].
    split; [done|]. apply map_Forall_empty.
Qed.

Lemma get_byte cm x y :
  wf_grid cm → byteGrid cm → ∃ v, get cm x y = number v ∧ 0 ≤ v < 256.
Proof.
  intros [Hsize Hall] Hbyte. rewrite get_def.
  destruct (chunks cm !! keyOf (chunkSize cm) x y) as [chunk|] eqn:Hchunk;
    [|exists 0; split; [done|lia]].
  destruct (Hall _ _ Hchunk) as [_ Hlen].
  pose proof (indexOf_range (chunkSize cm) Hsize x y) as Hidx.
  unfold Uint8Array.load. destruct (Z.ltb_spec (indexOf (chunkSize cm) x y) 0); [lia|].
  destruct (lookup_lt_is_Some_2 chunk (Z.to_nat (indexOf (chunkSize cm) x y)))
    as [v Hv]; [lia|].
  rewrite Hv. exists v. split; [done|].
  pose proof (Hbyte _ _ Hchunk) as Hforall.
  by apply (Forall_lookup_1 _ _ _ _ Hforall Hv).
Qed.

(** X4: every grid built from [new ChunkManager(size)], with a positive
    size, by calls of its methods keeps the chunk size, holds only keys
    that render chunk coordinates, arrays of size * size elements, and
    bytes in them. *)
Theorem built_grid_invariant size cm :
  0 < size → built size cm →
  chunkSize cm = size ∧ wf_grid cm ∧ byteGrid cm.
Proof.
  intros Hsize Hbuilt.
  destruct (built_facts size cm Hsize Hbuilt) as (Hwf & Hbyte & Hcs). done.
Qed.

Lemma built_grid_invariant_witness :
  chunkSize (clear (setCell 5 (-7) 300 (newChunkManager 32)).2).2 = 32 ∧
  wf_grid (clear (setCell 5 (-7) 300 (newChunkManager 32)).2).2 ∧
  byteGrid (clear (setCell 5 (-7) 300 (newChunkManager 32)).2).2.
Proof.
  apply (built_grid_invariant 32); [lia|].
  apply built_clear, built_setCell, built_new.
Defined.

(** X5: on such a grid [getCell] never returns [undefined]: at every
    coordinate it returns a number from 0 to 255. *)
Theorem getCell_returns_byte size cm x y :
  0 < size → built size cm →
  ∃ v, (getCell x y cm).1 = number v ∧ 0 ≤ v < 256.
Proof.
  intros Hsize Hbuilt.
  destruct (built_facts size cm Hsize Hbuilt) as (Hwf & Hbyte & _).
  by apply get_byte.
Qed.

Lemma getCell_returns_byte_witness :
  ∃ v, (getCell (-40) 3 (setCell (-40) 3 511 (newChunkManager 32)).2).1 = number v ∧
    0 ≤ v < 256.
Proof.
  apply (getCell_returns_byte 32); [lia|]. apply built_setCell, built_new.
Defined.

(** X6: [getOrCreateChunk(cx, cy)] returns the chunk under the key of
    [(cx, cy)], which is stored afterwards; it changes no cell of the
    plane, leaves the grid as it is when the chunk was there, and a second
    call changes nothing more. *)
Theorem getOrCreateChunk_keeps_cells cx cy cm :
  wf_grid cm →
  (getOrCreateChunk cx cy cm).1 = getChunkKey cx cy ∧
  is_Some (chunks (getOrCreateChunk cx cy cm).2 !! getChunkKey cx cy) ∧
  (∀ x y, get (getOrCreateChunk cx cy cm).2 x y = get cm x y) ∧
  (is_Some (chunks cm !! getChunkKey cx cy) → (getOrCreateChunk cx cy cm).2 = cm) ∧
  (getOrCreateChunk cx cy (getOrCreateChunk cx cy cm).2).2
    = (getOrCreateChunk cx cy cm).2.
Proof.
  intros Hwf.
  destruct (ensureChunk_lookup cm Hwf (getChunkKey cx cy))
    as (c & Hc & _); [auto with grid|].
  split_and!.
  - by rewrite getOrCreateChunk_def.
  - rewrite getOrCreateChunk_def. simpl. by eexists.
  - intros x y. by apply get_getOrCreateChunk.
  - intros [c0 Hc0]. rewrite getOrCreateChunk_def. unfold ensureChunk.
    rewrite Hc0. by destruct cm.
  - rewrite !getOrCreateChunk_def. simpl. unfold ensureChunk at 1. simpl.
    by rewrite Hc.
Qed.

Lemma getOrCreateChunk_keeps_cells_witness :
  (getOrCreateChunk 2 (-1) (grid newGame)).1 = getChunkKey 2 (-1) ∧
  is_Some (chunks (getOrCreateChunk 2 (-1) (grid newGame)).2 !! getChunkKey 2 (-1)) ∧
  (∀ x y, get (getOrCreateChunk 2 (-1) (grid newGame)).2 x y = get (grid newGame) x y) ∧
  (is_Some (chunks (grid newGame) !! getChunkKey 2 (-1)) →
   (getOrCreateChunk 2 (-1) (grid newGame)).2 = grid newGame) ∧
  (getOrCreateChunk 2 (-1) (getOrCreateChunk 2 (-1) (grid newGame)).2).2
    = (getOrCreateChunk 2 (-1) (grid newGame)).2.
Proof.
  apply (getOrCreateChunk_keeps_cells 2 (-1) (grid newGame)). compute_done.
Defined.

(** X7: writes compose cell by cell: a second write to a cell replaces
    the first, and writes to two different cells give the same plane in
    either order. *)
Theorem setCell_compose cm x y x' y' s s' :
  wf_grid cm →
  (∀ a b, get (set (set cm x y s) x y s') a b = get (set cm x y s') a b) ∧
  ((x, y) ≠ (x', y') →
   ∀ a b, get (set (set cm x y s) x' y' s') a b
        = get (set (set cm x' y' s') x y s) a b).
Proof.
  intros Hwf. split.
  - intros a b. rewrite !get_set by auto with grid. by case_decide.
  - intros Hne a b. rewrite !get_set by auto with grid.
    repeat case_decide; congruence.
Qed.

Lemma setCell_compose_witness :
  (∀ a b, get (set (set (newChunkManager 32) 0 0 1) 0 0 0) a b
        = get (set (newChunkManager 32) 0 0 0) a b) ∧
  ((0, 0) ≠ (-1, 0) →
   ∀ a b, get (set (set (newChunkManager 32) 0 0 1) (-1) 0 0) a b
        = get (set (set (newChunkManager 32) (-1) 0 0) 0 0 1) a b).
Proof.
  apply (setCell_compose (newChunkManager 32) 0 0 (-1) 0 1 0). compute_done.
Defined.

(** ** computeNextGen *)

Lemma bitGrid_new size : bitGrid (newChunkManager size).
Proof. intros x y. left. apply get_new. Qed.

Lemma bitGrid_set cm x y state :
  wf_grid cm → bitGrid cm → state = 0 ∨ state = 1 →
  bitGrid (set cm x y state).
Proof.
  intros Hwf Hbit Hstate x' y'. rewrite get_set by done.
  case_decide; [|apply Hbit].
  destruct Hstate as [-> | ->]; [left|right]; reflexivity.
Qed.

Lemma bitGrid_paint cells cm :
  wf_grid cm → bitGrid cm → bitGrid (paint cells cm).
Proof.
  intros Hwf Hbit x y. rewrite get_paint by done.
  case_decide; [by right|apply Hbit].
Qed.

Lemma computeNextGen_bitGrid g g' :
  wf_game g → computeNextGen g = Some g' → bitGrid (grid g').
Proof.
  intros Hwf Hnext x y. rewrite (computeNextGen_get g Hwf g' Hnext).
  case_decide; auto.
Qed.

Lemma computeNextGen_rule g g' x y :
  wf_game g → bitGrid (grid g) → 0 ∉ bornRules g →
  computeNextGen g = Some g' →
  get (grid g') x y =
    number (if decide (ruleAlive (bornRules g) (surviveRules g) (grid g) x y)
            then 1 else 0).
Proof.
  intros Hwf Hbit Hborn Hnext.
  rewrite (computeNextGen_get_rule g Hwf g' Hnext) by done.
  pose proof (nextState_rule g x y (Hbit x y)) as Hrule.
  repeat case_decide; first [done|tauto].
Qed.

(** X8: on a grid whose cells read 0 or 1, with no birth at count 0,
    [computeNextGen] returns and the new grid is the rule applied to the
    whole plane: a cell reads 1 when it was alive with its count in the
    survive set or dead with its count in the born set, and 0 otherwise. *)
Theorem computeNextGen_follows_rule g :
  wf_game g → bitGrid (grid g) → 0 ∉ bornRules g →
  ∃ g', computeNextGen g = Some g' ∧
    ∀ x y, get (grid g') x y =
      number (if decide (ruleAlive (bornRules g) (surviveRules g) (grid g) x y)
              then 1 else 0).
Proof.
  intros Hwf Hbit Hborn.
  destruct (computeNextGen_total g Hwf) as [g' Hnext].
  exists g'. split; [done|]. intros x y.
  rewrite (computeNextGen_get_rule g Hwf g' Hnext) by done.
  destruct (Hbit x y) as [Hdead|Hlive].
  - pose proof (nextState_rule g x y (or_introl Hdead)) as Hrule.
    repeat case_decide; first [done|tauto].
  - pose proof (nextState_rule g x y (or_intror Hlive)) as Hrule.
    repeat case_decide; first [done|tauto].
Qed.

Lemma computeNextGen_follows_rule_witness :
  ∃ g', computeNextGen blinkerAtOrigin = Some g' ∧
    ∀ x y, get (grid g') x y =
      number (if decide (ruleAlive (bornRules blinkerAtOrigin)
                           (surviveRules blinkerAtOrigin)
                           (grid blinkerAtOrigin) x y)
              then 1 else 0).
Proof.
  apply (computeNextGen_follows_rule blinkerAtOrigin).
  - compute_done.
  - unfold blinkerAtOrigin. simpl.
    repeat (apply bitGrid_set; [compute_done| |by right]).
    apply bitGrid_new.
  - compute_done.
Defined.

(** X9: whatever states the source grid holds, [computeNextGen] returns
    a state that is well formed again, whose grid has the chunk size of
    the engine and reads 0 or 1 at every cell, with the rule sets and the
    chunk size of the engine kept. *)
Theorem computeNextGen_normalises g :
  wf_game g →
  ∃ g', computeNextGen g = Some g' ∧
    wf_game g' ∧ bitGrid (grid g') ∧
    chunkSize (grid g') = gameChunkSize g ∧
    gameChunkSize g' = gameChunkSize g ∧
    bornRules g' = bornRules g ∧ surviveRules g' = surviveRules g.
Proof.
  intros Hwf. destruct (computeNextGen_total g Hwf) as [g' Hnext].
  exists g'. split; [done|].
  pose proof (computeNextGen_wf g Hwf g' Hnext) as Hwf'.
  destruct (computeNextGen_fields g Hwf g' Hnext) as (Hsize & Hb & Hs & _).
  split_and!; try done.
  - intros x y. rewrite (computeNextGen_get g Hwf g' Hnext). case_decide; auto.
  - destruct Hwf' as [<- _]. done.
Qed.

Lemma computeNextGen_normalises_witness :
  ∃ g', computeNextGen stateTwoCorner = Some g' ∧
    wf_game g' ∧ bitGrid (grid g') ∧
    chunkSize (grid g') = gameChunkSize stateTwoCorner ∧
    gameChunkSize g' = gameChunkSize stateTwoCorner ∧
    bornRules g' = bornRules stateTwoCorner ∧
    surviveRules g' = surviveRules stateTwoCorner.
Proof. apply (computeNextGen_normalises stateTwoCorner). compute_done. Defined.

Lemma liveNeighbors_dead cm x y :
  (∀ x y, get cm x y = number 0) → liveNeighbors cm x y = 0.
Proof.
  intros Hdead.
  by rewrite (liveNeighbors_shows cm (λ _ _, false)) by (intros a c; apply Hdead).
Qed.

Lemma bornCells_dead g :
  wf_game g → 0 ∉ bornRules g → (∀ x y, get (grid g) x y = number 0) →
  bornCells g = [].
Proof.
  intros Hwf Hborn Hdead.
  destruct (bornCells g) as [|[x y] cells] eqn:Hcells; [done|].
  assert ((x, y) ∈ bornCells g) as Hin by (rewrite Hcells; left).
  apply (elem_of_bornCells g Hwf) in Hin as [_ Halive].
  apply nextState_alive in Halive.
  rewrite Hdead, liveNeighbors_dead in Halive by done.
  simpl in Halive. tauto.
Qed.

(** X10: a grid that stores chunks but reads 0 at every cell is taken,
    when no cell is born at count 0, to the grid without any chunk, with
    population 0 and the generation advanced by one. *)
Theorem computeNextGen_dead_grid g :
  wf_game g → 0 ∉ bornRules g → (∀ x y, get (grid g) x y = number 0) →
  computeNextGen g =
    Some (mkGame (gameChunkSize g) (newChunkManager (gameChunkSize g))
            (bornRules g) (surviveRules g) (generation g + 1) 0).
Proof.
  intros Hwf Hborn Hdead.
  rewrite computeNextGen_bornCells by done.
  by rewrite bornCells_dead.
Qed.

Lemma computeNextGen_dead_grid_witness :
  computeNextGen erasedCell =
    Some (mkGame (gameChunkSize erasedCell)
            (newChunkManager (gameChunkSize erasedCell))
            (bornRules erasedCell) (surviveRules erasedCell)
            (generation erasedCell + 1) 0).
Proof.
  apply (computeNextGen_dead_grid erasedCell).
  - compute_done.
  - compute_done.
  - intros x y. unfold erasedCell. simpl. rewrite !get_set, get_new by compute_done.
    by repeat case_decide.
Defined.

(** X11: with no stored chunk the next generation is empty for every
    rule, also with 0 in the born set: after [clear()] the engine is
    paused with both counters at 0, every cell reads 0, a frame of the
    loop changes nothing, and [computeNextGen] gives the empty grid at
    generation 1 with population 0. *)
Theorem clear_then_step a due :
  isRunning (clearApp a) = false ∧
  generation (game (clearApp a)) = 0 ∧
  population (game (clearApp a)) = 0 ∧
  chunks (grid (game (clearApp a))) = ∅ ∧
  (∀ x y, get (grid (game (clearApp a))) x y = number 0) ∧
  loop due (clearApp a) = Some (clearApp a) ∧
  computeNextGen (game (clearApp a)) =
    Some (mkGame (gameChunkSize (game a))
            (newChunkManager (gameChunkSize (game a)))
            (bornRules (game a)) (surviveRules (game a)) 1 0).
Proof.
  split_and!; try done.
Qed.

(** ** Moving the pattern *)

Lemma length_filter_fmap {A B} (f : A → B) (P : B → Prop)
    `{!∀ x, Decision (P x)} (l : list A) :
  length (filter P (f <$> l)) = length (filter (P ∘ f) l).
Proof.
  induction l as [|a l IH]; [done|].
  rewrite fmap_cons, !filter_cons. simpl.
  destruct (decide (P (f a))); simpl; by rewrite IH.
Qed.

Lemma liveNeighbors_shifted dx dy cm cm' x y :
  shifted dx dy cm cm' →
  liveNeighbors cm' (x + dx) (y + dy) = liveNeighbors cm x y.
Proof.
  intros Hshift. unfold liveNeighbors. f_equal.
  assert (adjacent (x + dx) (y + dy) =
          (λ c, (c.1 + dx, c.2 + dy)) <$> adjacent x y) as ->.
  { unfold adjacent. simpl.
    repeat (apply (f_equal2 cons); [apply (f_equal2 pair); lia|]). done. }
  rewrite length_filter_fmap. f_equal.
  apply list_filter_iff. intros [a c]. unfold alive. simpl.
  by rewrite Hshift.
Qed.

Lemma aliveNext_shifted dx dy g1 g2 x y :
  bornRules g2 = bornRules g1 → surviveRules g2 = surviveRules g1 →
  shifted dx dy (grid g1) (grid g2) →
  aliveNext g2 (x + dx, y + dy) ↔ aliveNext g1 (x, y).
Proof.
  intros Hb Hs Hshift. rewrite !nextState_alive.
  by rewrite Hshift, (liveNeighbors_shifted dx dy (grid g1)), Hb, Hs.
Qed.

Lemma shifted_set dx dy cm cm' x y state :
  wf_grid cm → wf_grid cm' → shifted dx dy cm cm' →
  shifted dx dy (set cm x y state) (set cm' (x + dx) (y + dy) state).
Proof.
  intros Hwf Hwf' Hshift x' y'. rewrite !get_set by done.
  destruct (decide ((x, y) = (x', y'))) as [[= <- <-]|Hne].
  - by rewrite decide_True.
  - rewrite decide_False; [apply Hshift|].
    intros [= ? ?]. apply Hne. f_equal; lia.
Qed.

(** X12: the next generation does not depend on where the pattern lies,
    on the chunk size, or on which dead chunks are stored: when the cells
    of a second engine are those of the first moved by [(dx, dy)], with
    the same rule sets and no birth at count 0, the next grids are moved
    by [(dx, dy)] too and the populations are equal. *)
Theorem computeNextGen_translation g1 g2 dx dy :
  wf_game g1 → wf_game g2 →
  bornRules g2 = bornRules g1 → surviveRules g2 = surviveRules g1 →
  0 ∉ bornRules g1 →
  shifted dx dy (grid g1) (grid g2) →
  ∃ g1' g2', computeNextGen g1 = Some g1' ∧ computeNextGen g2 = Some g2' ∧
    shifted dx dy (grid g1') (grid g2') ∧ population g2' = population g1'.
Proof.
  intros Hwf1 Hwf2 Hb Hs Hborn Hshift.
  destruct (computeNextGen_total g1 Hwf1) as [g1' Hnext1].
  destruct (computeNextGen_total g2 Hwf2) as [g2' Hnext2].
  exists g1', g2'. split; [done|]. split; [done|].
  assert (shifted dx dy (grid g1') (grid g2')) as Hshift'.
  { intros x y.
    rewrite (computeNextGen_get_rule g1 Hwf1 g1' Hnext1) by done.
    rewrite (computeNextGen_get_rule g2 Hwf2 g2' Hnext2) by (by rewrite Hb).
    apply decide_ext. by apply aliveNext_shifted. }
  split; [done|].
  rewrite (population_listing g1 Hwf1 g1' Hnext1 (bornCells g1)).
  - rewrite <-(length_fmap (λ c, (c.1 + dx, c.2 + dy)) (bornCells g1)).
    apply (population_listing g2 Hwf2 g2' Hnext2
             ((λ c, (c.1 + dx, c.2 + dy)) <$> bornCells g1)).
    + apply NoDup_fmap_2_strong; [|by apply NoDup_bornCells].
      intros [a c] [a' c'] _ _ [= ? ?]. f_equal; lia.
    + intros x y. rewrite list_elem_of_fmap. unfold alive. split.
      * intros ([a c] & [= -> ->] & Hin). simpl. rewrite Hshift'.
        by apply (alive_next_bornCells g1 Hwf1 g1' Hnext1).
      * intros Halive. exists (x - dx, y - dy). simpl.
        split; [f_equal; lia|].
        apply (alive_next_bornCells g1 Hwf1 g1' Hnext1). unfold alive.
        rewrite <-Hshift'. by replace (x - dx + dx) with x by lia;
          replace (y - dy + dy) with y by lia.
  - by apply NoDup_bornCells.
  - intros x y. symmetry. by apply alive_next_bornCells.
Qed.

Lemma computeNextGen_translation_witness :
  ∃ g1' g2',
    computeNextGen blinkerAtOrigin = Some g1' ∧
    computeNextGen blinkerMoved = Some g2' ∧
    shifted 5 (-3) (grid g1') (grid g2') ∧ population g2' = population g1'.
Proof.
  apply (computeNextGen_translation blinkerAtOrigin blinkerMoved 5 (-3)).
  - compute_done.
  - compute_done.
  - reflexivity.
  - reflexivity.
  - compute_done.
  - unfold blinkerAtOrigin, blinkerMoved. simpl.
    apply (shifted_set 5 (-3) _ _ 1 0 1); [compute_done..|].
    apply (shifted_set 5 (-3) _ _ 0 0 1); [compute_done..|].
    apply (shifted_set 5 (-3) _ _ (-1) 0 1); [compute_done..|].
    intros x y. rewrite get_set, !get_new by compute_done. by case_decide.
Defined.

(** ** Editing the grid *)

Lemma wf_grid_clear cm : 0 < chunkSize cm → wf_grid (clear cm).2.
Proof. intros Hsize. split; [done|]. apply map_Forall_empty. Qed.

Lemma elem_of_fromTo lo hi x : x ∈ fromTo lo hi ↔ lo ≤ x ≤ hi.
Proof. unfold fromTo. rewrite elem_of_seqZ. lia. Qed.

Lemma loadPattern_paint center row0 rest cm :
  loadPattern center (row0 :: rest) cm =
    Some (paint (patternCells (center.1 - Z.of_nat (length row0) / 2)
                   (center.2 - Z.of_nat (length (row0 :: rest)) / 2)
                   (row0 :: rest)) cm).
Proof.
  unfold loadPattern, paint, patternCells. f_equal.
  rewrite foldl_bind. apply foldl_pointwise. intros cm1 [py row].
  rewrite foldl_bind. apply foldl_pointwise. intros cm2 [px v].
  by destruct (v =? 0).
Qed.

Lemma elem_of_patternCells startX startY pattern x y :
  (x, y) ∈ patternCells startX startY pattern ↔
  patternCell startX startY pattern x y.
Proof.
  unfold patternCells, patternCell, indexed. rewrite list_elem_of_bind. split.
  - intros ([py row] & Hin & (i & row' & [= -> ->] & Hrow)%elem_of_lookup_imap).
    apply list_elem_of_bind in Hin
      as ([px v] & Hin & (j & v' & [= -> ->] & Hv)%elem_of_lookup_imap).
    destruct (Z.eqb_spec v' 0) as [|Hne]; [by apply elem_of_nil in Hin|].
    apply list_elem_of_singleton in Hin as [= -> ->].
    by exists i, j, row', v'.
  - intros (py & px & row & v & Hrow & Hv & Hne & -> & ->).
    exists (Z.of_nat py, row). split.
    + apply list_elem_of_bind. exists (Z.of_nat px, v). split.
      * rewrite (proj2 (Z.eqb_neq v 0)) by done. by apply list_elem_of_singleton.
      * apply elem_of_lookup_imap. by exists px, v.
    + apply elem_of_lookup_imap. by exists py, row.
Qed.

Lemma randomize_paint chosen startGrid endGrid a :
  grid (game (randomize chosen startGrid endGrid a)) =
    paint (randomCells chosen startGrid endGrid) (clear (grid (game a))).2.
Proof.
  unfold randomize, paint, randomCells. simpl.
  rewrite foldl_bind. apply foldl_pointwise. intros cm1 y.
  rewrite foldl_bind. apply foldl_pointwise. intros cm2 x.
  by destruct (chosen x y).
Qed.

Lemma elem_of_randomCells chosen startGrid endGrid x y :
  (x, y) ∈ randomCells chosen startGrid endGrid ↔
  chosen x y ∧ startGrid.1 - 1 ≤ x ≤ endGrid.1 + 1 ∧
  startGrid.2 - 1 ≤ y ≤ endGrid.2 + 1.
Proof.
  unfold randomCells. rewrite list_elem_of_bind. split.
  - intros (y' & (x' & Hin & Hx%elem_of_fromTo)%list_elem_of_bind
              & Hy%elem_of_fromTo).
    destruct (chosen x' y') eqn:Hchosen; [|by apply elem_of_nil in Hin].
    apply list_elem_of_singleton in Hin as [= -> ->].
    by rewrite Hchosen.
  - intros (Hchosen & Hx & Hy). exists y.
    rewrite list_elem_of_bind, elem_of_fromTo. split; [|done].
    exists x. rewrite elem_of_fromTo. split; [|done].
    destruct (chosen x y); [by apply list_elem_of_singleton|done].
Qed.

Lemma differs_false v n : differs v n = false → v = number n.
Proof.
  destruct v as [|m]; simpl; [done|].
  by intros ->%negb_false_iff%Z.eqb_eq.
Qed.

Lemma handleMouseMove_cases e a :
  isDragging a = false → isDrawing a = true →
  handleMouseMove e a =
    if differs (get (grid (game a)) (cell e).1 (cell e).2) (drawState a) then
      withGame (withGrid (set (grid (game a)) (cell e).1 (cell e).2 (drawState a))
                  (game a)) a
    else a.
Proof. unfold handleMouseMove. intros -> ->. by destruct (cell e). Qed.

Lemma handleMouseMove_same e a :
  get (grid (game a)) (cell e).1 (cell e).2 = number (drawState a) →
  handleMouseMove e a = a.
Proof.
  intros Hget. unfold handleMouseMove.
  destruct (isDragging a), (isDrawing a); try done.
  destruct (cell e) as [x y]. simpl in Hget. rewrite Hget. simpl.
  by rewrite Z.eqb_refl.
Qed.

(** X13: a press of the left button, or a touch, toggles the cell under
    the pointer, whatever state was stored there: a live cell reads 0
    afterwards and a dead cell reads 1. No other cell changes, the state
    written becomes the state of the stroke, and the generation and
    population counters are not touched. *)
Theorem click_toggles_cell e a :
  wf_grid (grid (game a)) → button e ≠ Some 1 → button e ≠ Some 2 →
  get (grid (game (handleMouseDown e a))) (cell e).1 (cell e).2 =
    number (if alive (grid (game a)) (cell e).1 (cell e).2 then 0 else 1) ∧
  (∀ x y, (x, y) ≠ cell e →
     get (grid (game (handleMouseDown e a))) x y = get (grid (game a)) x y) ∧
  drawState (handleMouseDown e a) =
    (if alive (grid (game a)) (cell e).1 (cell e).2 then 0 else 1) ∧
  isDrawing (handleMouseDown e a) = true ∧
  generation (game (handleMouseDown e a)) = generation (game a) ∧
  population (game (handleMouseDown e a)) = population (game a).
Proof.
  intros Hwf Hmiddle Hright. unfold handleMouseDown.
  rewrite bool_decide_eq_false_2 by tauto.
  destruct (cell e) as [x y]. simpl. unfold alive.
  split_and!; try done.
  - rewrite get_set_eq by done. by destruct (truthy _).
  - intros x' y' Hne. apply get_set_ne; [done|congruence].
Qed.

Lemma click_toggles_cell_witness :
  get (grid (game (handleMouseDown (mkPointer (Some 0) (-3, 40)) newApp)))
      (cell (mkPointer (Some 0) (-3, 40))).1 (cell (mkPointer (Some 0) (-3, 40))).2 =
    number (if alive (grid (game newApp)) (cell (mkPointer (Some 0) (-3, 40))).1
                 (cell (mkPointer (Some 0) (-3, 40))).2 then 0 else 1) ∧
  (∀ x y, (x, y) ≠ cell (mkPointer (Some 0) (-3, 40)) →
     get (grid (game (handleMouseDown (mkPointer (Some 0) (-3, 40)) newApp))) x y
       = get (grid (game newApp)) x y) ∧
  drawState (handleMouseDown (mkPointer (Some 0) (-3, 40)) newApp) =
    (if alive (grid (game newApp)) (cell (mkPointer (Some 0) (-3, 40))).1
          (cell (mkPointer (Some 0) (-3, 40))).2 then 0 else 1) ∧
  isDrawing (handleMouseDown (mkPointer (Some 0) (-3, 40)) newApp) = true ∧
  generation (game (handleMouseDown (mkPointer (Some 0) (-3, 40)) newApp))
    = generation (game newApp) ∧
  population (game (handleMouseDown (mkPointer (Some 0) (-3, 40)) newApp))
    = population (game newApp).
Proof.
  apply (click_toggles_cell (mkPointer (Some 0) (-3, 40)) newApp).
  - compute_done.
  - simpl. congruence.
  - simpl. congruence.
Defined.

(** X14: while a stroke is drawn (and the view is not dragged), a move
    of the pointer leaves the cell under it at the state of the stroke and
    changes no other cell; a second move over the same cell changes
    nothing. *)
Theorem stroke_paints_cell e a :
  wf_grid (grid (game a)) → 0 ≤ drawState a < 256 →
  isDragging a = false → isDrawing a = true →
  get (grid (game (handleMouseMove e a))) (cell e).1 (cell e).2 =
    number (drawState a) ∧
  (∀ x y, (x, y) ≠ cell e →
     get (grid (game (handleMouseMove e a))) x y = get (grid (game a)) x y) ∧
  handleMouseMove e (handleMouseMove e a) = handleMouseMove e a.
Proof.
  intros Hwf Hbyte Hdrag Hdraw.
  assert (get (grid (game (handleMouseMove e a))) (cell e).1 (cell e).2 =
            number (drawState a) ∧
          drawState (handleMouseMove e a) = drawState a) as [Hget Hstate].
  { rewrite handleMouseMove_cases by done.
    destruct (differs _ _) eqn:Hd; simpl.
    - split; [|done]. by apply get_set_byte.
    - split; [|done]. by apply differs_false. }
  split_and!; [done| |].
  - intros x y Hne. rewrite handleMouseMove_cases by done.
    destruct (differs _ _); [|done]. simpl.
    apply get_set_ne; [done|]. destruct (cell e). simpl. congruence.
  - apply handleMouseMove_same. by rewrite Hstate.
Qed.

Lemma stroke_paints_cell_witness :
  get (grid (game (handleMouseMove (mkPointer None (4, 4)) touchedAndStarted)))
      (cell (mkPointer None (4, 4))).1 (cell (mkPointer None (4, 4))).2 =
    number (drawState touchedAndStarted) ∧
  (∀ x y, (x, y) ≠ cell (mkPointer None (4, 4)) →
     get (grid (game (handleMouseMove (mkPointer None (4, 4)) touchedAndStarted))) x y
       = get (grid (game touchedAndStarted)) x y) ∧
  handleMouseMove (mkPointer None (4, 4))
      (handleMouseMove (mkPointer None (4, 4)) touchedAndStarted)
    = handleMouseMove (mkPointer None (4, 4)) touchedAndStarted.
Proof.
  apply (stroke_paints_cell (mkPointer None (4, 4)) touchedAndStarted).
  - compute_done.
  - simpl. lia.
  - reflexivity.
  - reflexivity.
Defined.

(** X15: [loadPattern] throws on the empty pattern; on any other it
    marks alive the cell of every nonzero entry, the entry of row [py] and
    column [px] at the offset [(px, py)] from the corner that puts the
    middle of the pattern on the cell at the centre of the screen, and it
    changes no other cell: cells that were alive stay so. *)
Theorem loadPattern_overlays center row0 rest cm :
  wf_grid cm →
  loadPattern center [] cm = None ∧
  ∃ cm', loadPattern center (row0 :: rest) cm = Some cm' ∧
    chunkSize cm' = chunkSize cm ∧
    ∀ x y,
      (patternCell (center.1 - Z.of_nat (length row0) / 2)
         (center.2 - Z.of_nat (length (row0 :: rest)) / 2) (row0 :: rest) x y →
       get cm' x y = number 1) ∧
      (¬ patternCell (center.1 - Z.of_nat (length row0) / 2)
           (center.2 - Z.of_nat (length (row0 :: rest)) / 2) (row0 :: rest) x y →
       get cm' x y = get cm x y).
Proof.
  intros Hwf. split; [done|].
  eexists. split; [apply loadPattern_paint|].
  split; [apply chunkSize_paint|].
  intros x y. rewrite get_paint by done. split.
  - intros Hin%elem_of_patternCells. by rewrite decide_True.
  - intros Hout. rewrite decide_False; [done|].
    by rewrite elem_of_patternCells.
Qed.

Lemma loadPattern_overlays_witness :
  loadPattern (0, 0) [] (grid newGame) = None ∧
  ∃ cm', loadPattern (0, 0) ([0; 1; 0] :: [[0; 0; 1]; [1; 1; 1]]) (grid newGame)
           = Some cm' ∧
    chunkSize cm' = chunkSize (grid newGame) ∧
    ∀ x y,
      (patternCell ((0, 0).1 - Z.of_nat (length [0; 1; 0]) / 2)
         ((0, 0).2 - Z.of_nat (length ([0; 1; 0] :: [[0; 0; 1]; [1; 1; 1]])) / 2)
         ([0; 1; 0] :: [[0; 0; 1]; [1; 1; 1]]) x y →
       get cm' x y = number 1) ∧
      (¬ patternCell ((0, 0).1 - Z.of_nat (length [0; 1; 0]) / 2)
           ((0, 0).2 - Z.of_nat (length ([0; 1; 0] :: [[0; 0; 1]; [1; 1; 1]])) / 2)
           ([0; 1; 0] :: [[0; 0; 1]; [1; 1; 1]]) x y →
       get cm' x y = get (grid newGame) x y).
Proof.
  apply (loadPattern_overlays (0, 0) [0; 1; 0] [[0; 0; 1]; [1; 1; 1]] (grid newGame)).
  compute_done.
Defined.

(** X16: [randomize()] clears the grid, pauses, and leaves alive exactly
    the cells chosen by the random draws inside the visible rectangle
    padded by one cell; both counters are left at 0, so the population
    shown is not the number of live cells until the next generation. *)
Theorem randomize_fills_chosen chosen startGrid endGrid a :
  0 < chunkSize (grid (game a)) →
  (∀ x y, get (grid (game (randomize chosen startGrid endGrid a))) x y =
     number (if decide (chosen x y ∧
                        startGrid.1 - 1 ≤ x ≤ endGrid.1 + 1 ∧
                        startGrid.2 - 1 ≤ y ≤ endGrid.2 + 1)
             then 1 else 0)) ∧
  generation (game (randomize chosen startGrid endGrid a)) = 0 ∧
  population (game (randomize chosen startGrid endGrid a)) = 0 ∧
  isRunning (randomize chosen startGrid endGrid a) = false.
Proof.
  intros Hsize. split; [|done]. intros x y.
  rewrite randomize_paint, get_paint, get_clear by by apply wf_grid_clear.
  pose proof (elem_of_randomCells chosen startGrid endGrid x y) as Hin.
  repeat case_decide; first [done|tauto].
Qed.

Lemma randomize_fills_chosen_witness :
  (∀ x y, get (grid (game (randomize (λ x y, (x + y) mod 2 =? 0) (0, 0) (9, 5)
                             touchedAndStarted))) x y =
     number (if decide ((λ x y, (x + y) mod 2 =? 0) x y ∧
                        (0, 0).1 - 1 ≤ x ≤ (9, 5).1 + 1 ∧
                        (0, 0).2 - 1 ≤ y ≤ (9, 5).2 + 1)
             then 1 else 0)) ∧
  generation (game (randomize (λ x y, (x + y) mod 2 =? 0) (0, 0) (9, 5)
                      touchedAndStarted)) = 0 ∧
  population (game (randomize (λ x y, (x + y) mod 2 =? 0) (0, 0) (9, 5)
                      touchedAndStarted)) = 0 ∧
  isRunning (randomize (λ x y, (x + y) mod 2 =? 0) (0, 0) (9, 5)
               touchedAndStarted) = false.
Proof.
  apply (randomize_fills_chosen (λ x y, (x + y) mod 2 =? 0) (0, 0) (9, 5)
           touchedAndStarted).
  simpl. by rewrite chunkSize_set.
Defined.

(** ** Drawing *)

Lemma index_split size i :
  0 < size → 0 ≤ i < size * size →
  0 ≤ Z.rem i size < size ∧ 0 ≤ i / size < size ∧
  i / size * size + Z.rem i size = i.
Proof.
  intros Hsize Hi. rewrite Z.rem_mod_nonneg by lia.
  pose proof (Z.mod_pos_bound i size Hsize).
  pose proof (Z.div_mod i size ltac:(lia)).
  assert (0 ≤ i / size) by (apply Z.div_pos; lia).
  assert (i / size < size) by (apply Z.div_lt_upper_bound; lia).
  lia.
Qed.

Lemma getChunk_def cx cy cm :
  getChunk cx cy cm = (chunks cm !! getChunkKey cx cy, cm).
Proof. unfold getChunk. by run_M. Qed.

Lemma elem_of_drawChunk size minX minY maxX maxY cx cy chunk x y :
  0 < size → length chunk = Z.to_nat (size * size) →
  (x, y) ∈ drawChunk size minX minY maxX maxY cx cy chunk ↔
  chunkCoord x size = cx ∧ chunkCoord y size = cy ∧
  truthy (Uint8Array.load chunk (indexOf size x y)) ∧
  minX ≤ x ≤ maxX ∧ minY ≤ y ≤ maxY.
Proof.
  intros Hsize Hlen. unfold drawChunk. rewrite list_elem_of_bind. split.
  - intros (i & Hin & Hi%elem_of_seqZ).
    destruct (index_split size i Hsize) as (Hlx & Hly & Hsum); [lia|].
    destruct (truthy (Uint8Array.load chunk i)) eqn:Hlive;
      [|by apply elem_of_nil in Hin].
    destruct (Z.ltb_spec (cx * size + Z.rem i size) minX); simpl in Hin;
      [by apply elem_of_nil in Hin|].
    destruct (Z.ltb_spec maxX (cx * size + Z.rem i size)); simpl in Hin;
      [by apply elem_of_nil in Hin|].
    destruct (Z.ltb_spec (cy * size + i / size) minY); simpl in Hin;
      [by apply elem_of_nil in Hin|].
    destruct (Z.ltb_spec maxY (cy * size + i / size)); simpl in Hin;
      [by apply elem_of_nil in Hin|].
    apply list_elem_of_singleton in Hin as [= -> ->].
    unfold indexOf.
    rewrite !chunkCoord_local, !localOffset_local, Hsum, Hlive by done.
    split_and!; try done; lia.
  - intros (<- & <- & Hlive & Hx & Hy).
    pose proof (indexOf_range size Hsize x y) as Hi.
    pose proof (localOffset_range size Hsize x) as Hlx.
    pose proof (localOffset_range size Hsize y) as Hly.
    destruct (index_split size (indexOf size x y) Hsize Hi) as (Hrx & Hry & Hsum).
    assert (indexOf size x y / size = localOffset y size ∧
            Z.rem (indexOf size x y) size = localOffset x size) as [Hdiv Hrem].
    { rewrite Z.rem_mod_nonneg by lia. unfold indexOf. split; symmetry.
      - apply (Z.div_unique_pos _ _ _ (localOffset x size)); lia.
      - apply (Z.mod_unique_pos _ _ (localOffset y size)); lia. }
    exists (indexOf size x y). rewrite elem_of_seqZ. split; [|lia].
    destruct (truthy _); [|done].
    rewrite Hdiv, Hrem, <-!chunk_decompose by done.
    rewrite (proj2 (Z.ltb_ge _ _)) by lia. rewrite (proj2 (Z.ltb_ge _ _)) by lia.
    rewrite (proj2 (Z.ltb_ge _ _)) by lia. rewrite (proj2 (Z.ltb_ge _ _)) by lia.
    by apply list_elem_of_singleton.
Qed.

Lemma NoDup_drawChunk size minX minY maxX maxY cx cy chunk :
  0 < size → NoDup (drawChunk size minX minY maxX maxY cx cy chunk).
Proof.
  intros Hsize. unfold drawChunk.
  assert (∀ i c,
    c ∈ (if truthy (Uint8Array.load chunk i) then
           if (cx * size + Z.rem i size <? minX) || (maxX <? cx * size + Z.rem i size)
              || (cy * size + i / size <? minY) || (maxY <? cy * size + i / size)
           then [] else [(cx * size + Z.rem i size, cy * size + i / size)]
         else []) →
    c = (cx * size + Z.rem i size, cy * size + i / size)) as Hcell.
  { intros i c Hin. repeat case_match; try by apply elem_of_nil in Hin.
    by apply list_elem_of_singleton in Hin. }
  apply NoDup_bind; [| |apply NoDup_seqZ].
  - intros i j c Hi%elem_of_seqZ Hj%elem_of_seqZ ->%Hcell [= Hrem Hdiv]%Hcell.
    rewrite !Z.rem_mod_nonneg in Hrem by lia.
    pose proof (Z.div_mod i size ltac:(lia)).
    pose proof (Z.div_mod j size ltac:(lia)).
    nia.
  - intros i _. repeat case_match; first [apply NoDup_nil_2|apply NoDup_singleton].
Qed.

Lemma elem_of_draw startGrid endGrid g x y :
  wf_game g →
  (x, y) ∈ draw startGrid endGrid g ↔
  alive (grid g) x y ∧
  startGrid.1 - 1 ≤ x ≤ endGrid.1 + 1 ∧ startGrid.2 - 1 ≤ y ≤ endGrid.2 + 1.
Proof.
  intros [Hcs [Hsize Hall]]. rewrite <-Hcs in Hsize.
  unfold draw, alive. rewrite get_def, <-Hcs, list_elem_of_bind. split.
  - intros (cy & (cx & Hin & Hcx)%list_elem_of_bind & Hcy).
    rewrite getChunk_def in Hin. simpl in Hin.
    destruct (chunks (grid g) !! getChunkKey cx cy) as [chunk|] eqn:Hchunk;
      [|by apply elem_of_nil in Hin].
    destruct (Hall _ _ Hchunk) as [_ Hlen]. rewrite <-Hcs in Hlen.
    apply elem_of_drawChunk in Hin as (<- & <- & Hlive & Hx & Hy); [|done..].
    unfold keyOf. by rewrite Hchunk.
  - intros (Hlive & Hx & Hy).
    destruct (chunks (grid g) !! keyOf (gameChunkSize g) x y) as [chunk|] eqn:Hchunk;
      [|done].
    destruct (Hall _ _ Hchunk) as [_ Hlen]. rewrite <-Hcs in Hlen.
    exists (chunkCoord y (gameChunkSize g)).
    rewrite elem_of_fromTo.
    split; [|split; apply Z.div_le_mono; lia].
    apply list_elem_of_bind. exists (chunkCoord x (gameChunkSize g)).
    rewrite elem_of_fromTo.
    split; [|split; apply Z.div_le_mono; lia].
    rewrite getChunk_def. simpl. unfold keyOf in Hchunk. rewrite Hchunk.
    by apply elem_of_drawChunk.
Qed.

(** X17: [draw()] fills one square for each live cell inside the visible
    rectangle padded by one cell, whatever nonzero state is stored for it,
    and no other square: no dead cell, no cell outside the bounds, and no
    cell twice. *)
Theorem draw_fills_live_cells startGrid endGrid g :
  wf_game g →
  NoDup (draw startGrid endGrid g) ∧
  ∀ x y, (x, y) ∈ draw startGrid endGrid g ↔
    alive (grid g) x y ∧
    startGrid.1 - 1 ≤ x ≤ endGrid.1 + 1 ∧ startGrid.2 - 1 ≤ y ≤ endGrid.2 + 1.
Proof.
  intros Hwf. split; [|intros x y; by apply elem_of_draw].
  pose proof Hwf as [Hcs [Hsize Hall]]. rewrite <-Hcs in Hsize.
  assert (∀ cx cy c,
    c ∈ match (getChunk cx cy (grid g)).1 with
        | None => []
        | Some chunk =>
            drawChunk (gameChunkSize g) (startGrid.1 - 1) (startGrid.2 - 1)
              (endGrid.1 + 1) (endGrid.2 + 1) cx cy chunk
        end →
    chunkCoord c.1 (gameChunkSize g) = cx ∧
    chunkCoord c.2 (gameChunkSize g) = cy) as Hchunk.
  { intros cx cy [x y] Hin. rewrite getChunk_def in Hin. simpl in Hin.
    destruct (chunks (grid g) !! getChunkKey cx cy) as [chunk|] eqn:Hlookup;
      [|by apply elem_of_nil in Hin].
    destruct (Hall _ _ Hlookup) as [_ Hlen]. rewrite <-Hcs in Hlen.
    apply elem_of_drawChunk in Hin as (<- & <- & _); done. }
  unfold draw. apply NoDup_bind; [| |apply NoDup_seqZ].
  - intros cy cy' c _ _.
    intros (cx & [_ <-]%Hchunk & _)%list_elem_of_bind.
    by intros (cx' & [_ <-]%Hchunk & _)%list_elem_of_bind.
  - intros cy _. apply NoDup_bind; [| |apply NoDup_seqZ].
    + by intros cx cx' c _ _ [<- _]%Hchunk [<- _]%Hchunk.
    + intros cx _. destruct (getChunk cx cy (grid g)).1; [|apply NoDup_nil_2].
      by apply NoDup_drawChunk.
Qed.

Lemma draw_fills_live_cells_witness :
  NoDup (draw (-10, -10) (10, 10) stateTwoCorner) ∧
  ∀ x y, (x, y) ∈ draw (-10, -10) (10, 10) stateTwoCorner ↔
    alive (grid stateTwoCorner) x y ∧
    (-10, -10).1 - 1 ≤ x ≤ (10, 10).1 + 1 ∧ (-10, -10).2 - 1 ≤ y ≤ (10, 10).2 + 1.
Proof.
  apply (draw_fills_live_cells (-10, -10) (10, 10) stateTwoCorner). compute_done.
Defined.

(** ** The rule controls *)

Lemma lookupRule_Some name rules rule :
  lookupRule name rules = Some rule → (name, rule) ∈ rules.
Proof.
  induction rules as [|[n r] rules IH]; simpl; [done|].
  destruct (String.eqb_spec n name) as [->|].
  - intros [= ->]. left.
  - intros Hrule. right. by apply IH.
Qed.

Lemma lookupRule_offered name rules :
  name ∈ rules.*1 → is_Some (lookupRule name rules).
Proof.
  induction rules as [|[n r] rules IH]; simpl; [by intros ?%elem_of_nil|].
  intros [->|Hin]%elem_of_cons.
  - rewrite String.eqb_refl. by eexists.
  - destruct (String.eqb n name); [by eexists|by apply IH].
Qed.

Lemma RULES_names : Forall (λ name, String.eqb name "" = false) RULES.*1.
Proof. compute_done. Qed.

Lemma rulesInRange_applyRule name rule g :
  (name, rule) ∈ RULES → rulesInRange (applyRule rule g).
Proof.
  intros Hin. pose proof RULES_counts as Hall.
  rewrite Forall_forall in Hall. destruct (Hall _ Hin) as [Hborn Hsurvive].
  rewrite Forall_forall in Hborn, Hsurvive.
  split; intros n Hn%elem_of_rule_set; simpl in *; auto.
Qed.

Lemma onRuleSelect_offered name g :
  name ∈ RULES.*1 →
  ∃ rule, (name, rule) ∈ RULES ∧ onRuleSelect name g = applyRule rule g.
Proof.
  intros Hin. pose proof RULES_names as Hnames.
  rewrite Forall_forall in Hnames. unfold onRuleSelect.
  rewrite (Hnames _ Hin).
  destruct (lookupRule_offered name RULES Hin) as [rule Hrule].
  rewrite Hrule. exists rule. split; [by apply lookupRule_Some|done].
Qed.

Lemma rulesInRange_onRuleSelect name g :
  name ∈ ruleOptions → rulesInRange g → rulesInRange (onRuleSelect name g).
Proof.
  intros [->|Hin]%elem_of_cons Hrange; [done|].
  destruct (onRuleSelect_offered name g Hin) as (rule & Hrule & ->).
  by apply (rulesInRange_applyRule name).
Qed.

Lemma elem_of_onRuleChange rules val checked n :
  n ∈ onRuleChange rules val checked ↔
  (n = val ∧ checked) ∨ (n ≠ val ∧ n ∈ rules).
Proof.
  unfold onRuleChange. destruct checked.
  - rewrite elem_of_union, elem_of_singleton. split.
    + intros [->|Hin]; [by left|].
      destruct (decide (n = val)) as [->|Hne]; [by left|by right].
    + intros [[-> _]|[_ Hin]]; [by left|by right].
  - rewrite elem_of_difference, elem_of_singleton. split.
    + intros [Hin Hne]. by right.
    + intros [[_ []]|[Hne Hin]]. done.
Qed.

(** X18: choosing a rule the selector offers replaces both rule sets by
    the counts the table lists under that name, which lie in 1..8 for
    birth and in 0..8 for survival, and leaves the grid and both counters
    as they are; choosing the placeholder changes nothing. *)
Theorem rule_select_applies_preset name g :
  name ∈ RULES.*1 →
  onRuleSelect "" g = g ∧
  ∃ rule, (name, rule) ∈ RULES ∧
    (∀ n, n ∈ bornRules (onRuleSelect name g) ↔ n ∈ b rule) ∧
    (∀ n, n ∈ surviveRules (onRuleSelect name g) ↔ n ∈ s rule) ∧
    rulesInRange (onRuleSelect name g) ∧
    grid (onRuleSelect name g) = grid g ∧
    generation (onRuleSelect name g) = generation g ∧
    population (onRuleSelect name g) = population g.
Proof.
  intros Hin. split; [done|].
  destruct (onRuleSelect_offered name g Hin) as (rule & Hrule & ->).
  exists rule. split_and!; try done.
  - intros n. apply elem_of_rule_set.
  - intros n. apply elem_of_rule_set.
  - by apply (rulesInRange_applyRule name).
Qed.

Lemma rule_select_applies_preset_witness :
  onRuleSelect "" erasedCell = erasedCell ∧
  ∃ rule, ("Day & Night", rule) ∈ RULES ∧
    (∀ n, n ∈ bornRules (onRuleSelect "Day & Night" erasedCell) ↔ n ∈ b rule) ∧
    (∀ n, n ∈ surviveRules (onRuleSelect "Day & Night" erasedCell) ↔ n ∈ s rule) ∧
    rulesInRange (onRuleSelect "Day & Night" erasedCell) ∧
    grid (onRuleSelect "Day & Night" erasedCell) = grid erasedCell ∧
    generation (onRuleSelect "Day & Night" erasedCell) = generation erasedCell ∧
    population (onRuleSelect "Day & Night" erasedCell) = population erasedCell.
Proof.
  apply (rule_select_applies_preset "Day & Night" erasedCell). compute_done.
Defined.

(** X19: a rule checkbox changes the membership of its own count and of
    no other: checked, the count is in the set, unchecked, it is not,
    and every other count is in the set exactly when it was before. The
    other rule set, the grid and the counters are left as they are. *)
Theorem rule_checkbox_sets_one_count val checked g n :
  (n ∈ bornRules (onBornChange val checked g) ↔
     (n = val ∧ checked) ∨ (n ≠ val ∧ n ∈ bornRules g)) ∧
  (n ∈ surviveRules (onSurviveChange val checked g) ↔
     (n = val ∧ checked) ∨ (n ≠ val ∧ n ∈ surviveRules g)) ∧
  surviveRules (onBornChange val checked g) = surviveRules g ∧
  bornRules (onSurviveChange val checked g) = bornRules g ∧
  grid (onBornChange val checked g) = grid g ∧
  grid (onSurviveChange val checked g) = grid g.
Proof.
  split_and!; try done; apply elem_of_onRuleChange.
Qed.

(** ** The states the application reaches *)

Lemma app_ok_newApp : app_ok newApp.
Proof.
  split_and!; [compute_done|apply bitGrid_new| |by right].
  split; simpl; intros n.
  - intros ->%elem_of_singleton. lia.
  - rewrite elem_of_union, !elem_of_singleton. lia.
Qed.

Lemma app_ok_set a x y state r d w :
  app_ok a → state = 0 ∨ state = 1 →
  app_ok (mkApp (withGrid (set (grid (game a)) x y state) (game a)) r d w state).
Proof.
  intros ([Hcs Hwf] & Hbit & Hrange & _) Hstate.
  split_and!; simpl; [|by apply bitGrid_set|done|done].
  split; simpl; [by rewrite chunkSize_set|auto with grid].
Qed.

Lemma app_ok_paint a cells cm :
  app_ok a → wf_grid cm → bitGrid cm → chunkSize cm = chunkSize (grid (game a)) →
  app_ok (withGame (withGrid (paint cells cm) (game a)) a).
Proof.
  intros ([Hcs Hwf] & Hbit & Hrange & Hstate) Hwf' Hbit' Hcs'.
  split_and!; simpl; [|by apply bitGrid_paint|done|done].
  split; simpl; [rewrite chunkSize_paint; congruence|auto with grid].
Qed.

Lemma app_ok_game a g r d w :
  app_ok a → wf_game g → bitGrid (grid g) → rulesInRange g →
  app_ok (mkApp g r d w (drawState a)).
Proof. intros (_ & _ & _ & Hstate) Hwf Hbit Hrange. by split_and!. Qed.

Lemma app_ok_loop due a a' : app_ok a → loop due a = Some a' → app_ok a'.
Proof.
  intros Hok. unfold loop.
  destruct (isRunning a); simpl; [|by intros [= <-]].
  destruct due; [|by intros [= <-]].
  destruct (computeNextGen (game a)) as [g'|] eqn:Hnext; [|done].
  intros [= <-]. pose proof Hok as (Hwf & Hbit & [Hborn Hsurvive] & Hstate).
  destruct (computeNextGen_fields (game a) Hwf g' Hnext) as (_ & Hb & Hs & _).
  apply app_ok_game; [done|by apply (computeNextGen_wf (game a))
                     |by apply (computeNextGen_bitGrid (game a))|].
  split; intros n; rewrite ?Hb, ?Hs; auto.
Qed.

Lemma uiStep_app_ok a a' : app_ok a → uiStep a a' → app_ok a'.
Proof.
  intros Hok Hstep. pose proof Hok as ([Hcs Hwf] & Hbit & Hrange & Hstate).
  destruct Hstep as [e a|e a|a|center pattern a cm Hload|a|chosen sg eg a
                    |val checked a Hval|val checked a Hval|name a Hname
                    |due a a' Hstart|a|due a a' Hloop].
  - unfold handleMouseDown. case_bool_decide.
    + by apply app_ok_game.
    + destruct (cell e) as [x y]. apply app_ok_set; [done|].
      destruct (truthy _); auto.
  - unfold handleMouseMove.
    destruct (isDragging a); [done|]. destruct (isDrawing a); [|done].
    destruct (cell e) as [x y]. destruct (differs _ _); [|done].
    destruct a as [g r d w state]. by apply (app_ok_set (mkApp g r d w state)).
  - by apply app_ok_game.
  - destruct pattern as [|row0 rest]; [done|].
    rewrite loadPattern_paint in Hload. injection Hload as <-.
    by apply app_ok_paint.
  - apply app_ok_game; [done| | |done].
    + split; [done|]. apply wf_grid_clear. by destruct Hwf.
    + intros x y. left. apply get_clear.
  - assert (wf_grid (clear (grid (game a))).2) as Hclear
      by (apply wf_grid_clear; by destruct Hwf).
    pose proof (randomize_paint chosen sg eg a) as Hgrid.
    assert (wf_game (game (randomize chosen sg eg a))) as Hwf1.
    { split; [|rewrite Hgrid; by apply wf_grid_paint].
      rewrite Hgrid, chunkSize_paint. exact Hcs. }
    assert (bitGrid (grid (game (randomize chosen sg eg a)))) as Hbit1.
    { rewrite Hgrid. apply bitGrid_paint; [done|].
      intros x y. left. apply get_clear. }
    exact (app_ok_game a _ _ _ _ Hok Hwf1 Hbit1 Hrange).
  - apply app_ok_game; [done..|]. destruct Hrange as [Hborn Hsurvive].
    split; [|done]. intros n [[-> _]|[_ Hn]]%elem_of_onRuleChange; [|auto].
    by apply elem_of_fromTo in Hval.
  - apply app_ok_game; [done..|]. destruct Hrange as [Hborn Hsurvive].
    split; [done|]. intros n [[-> _]|[_ Hn]]%elem_of_onRuleChange; [|auto].
    by apply elem_of_fromTo in Hval.
  - apply (app_ok_game a); [done| | |by apply rulesInRange_onRuleSelect].
    + apply elem_of_cons in Hname as [->|Hin]; [done|].
      by destruct (onRuleSelect_offered name (game a) Hin) as (rule & _ & ->).
    + apply elem_of_cons in Hname as [->|Hin]; [done|].
      by destruct (onRuleSelect_offered name (game a) Hin) as (rule & _ & ->).
  - unfold start in Hstart. destruct (isRunning a); [by injection Hstart as <-|].
    apply (app_ok_loop due _ _ (app_ok_game a _ true _ _ Hok (conj Hcs Hwf) Hbit Hrange)
             Hstart).
  - by apply app_ok_game.
  - by apply (app_ok_loop due a).
Qed.

(** X20: in every state the application reaches from its constructor
    through the mouse and touch handlers, the buttons, the pattern and
    rule controls and the animation loop, the grid has the chunk size of
    the engine and is well formed, every cell reads 0 or 1, the born set
    lies in 1..8 and the survive set in 0..8, and the state of the stroke
    is 0 or 1. *)
Theorem reachable_state_invariant a :
  reachable a →
  wf_game (game a) ∧ bitGrid (grid (game a)) ∧
  (∀ n, n ∈ bornRules (game a) → 1 ≤ n ≤ 8) ∧
  (∀ n, n ∈ surviveRules (game a) → 0 ≤ n ≤ 8) ∧
  (drawState a = 0 ∨ drawState a = 1).
Proof.
  intros Hreach.
  assert (app_ok a) as (Hwf & Hbit & [Hborn Hsurvive] & Hstate); [|done].
  revert a Hreach. apply (rtc_ind_r app_ok newApp); [apply app_ok_newApp|].
  intros a a' _ Hstep Hok. by apply (uiStep_app_ok a).
Qed.

Lemma reachable_state_invariant_witness :
  wf_game (game touchedAndStarted) ∧ bitGrid (grid (game touchedAndStarted)) ∧
  (∀ n, n ∈ bornRules (game touchedAndStarted) → 1 ≤ n ≤ 8) ∧
  (∀ n, n ∈ surviveRules (game touchedAndStarted) → 0 ≤ n ≤ 8) ∧
  (drawState touchedAndStarted = 0 ∨ drawState touchedAndStarted = 1).
Proof.
  apply (reachable_state_invariant touchedAndStarted).
  eapply rtc_l; [apply (ui_mouseDown (mkPointer None (3, 4)))|].
  apply rtc_once. apply (ui_start false). reflexivity.
Defined.

(** X21: in every state the application reaches, a frame of the loop
    returns; when the engine is running and the frame is due, the new
    grid is the rule applied to the whole plane, the generation counter
    is one more, and the population counter is the number of live cells
    stored. *)
Theorem reachable_frame_follows_rule a due :
  reachable a →
  is_Some (loop due a) ∧
  (isRunning a = true →
   ∃ g', loop true a = Some (withGame g' a) ∧
     generation g' = generation (game a) + 1 ∧
     population g' = liveCount (grid g') ∧
     ∀ x y, get (grid g') x y =
       number (if decide (ruleAlive (bornRules (game a)) (surviveRules (game a))
                            (grid (game a)) x y)
               then 1 else 0)).
Proof.
  intros Hreach.
  assert (app_ok a) as (Hwf & Hbit & [Hborn Hsurvive] & Hstate).
  { revert a Hreach. apply (rtc_ind_r app_ok newApp); [apply app_ok_newApp|].
    intros a a' _ Hstep Hok. by apply (uiStep_app_ok a). }
  destruct (computeNextGen_total (game a) Hwf) as [g' Hnext].
  split.
  - unfold loop. rewrite Hnext. by repeat case_match.
  - intros Hrun. exists g'. unfold loop. rewrite Hrun, Hnext. simpl.
    split_and!; [done|by apply computeNextGen_generation| |].
    + pose proof Hwf as [Hsize [Hpos _]]. rewrite <-Hsize in Hpos.
      rewrite computeNextGen_bornCells in Hnext by done.
      injection Hnext as <-. simpl.
      rewrite liveCount_paint, liveCount_new; [lia|auto with grid|
        by apply NoDup_bornCells|].
      apply Forall_forall. intros c _. apply get_new.
    + intros x y. apply computeNextGen_rule; [done..| |done].
      intros Hzero%Hborn. lia.
Qed.

Lemma reachable_frame_follows_rule_witness :
  is_Some (loop true touchedAndStarted) ∧
  (isRunning touchedAndStarted = true →
   ∃ g', loop true touchedAndStarted = Some (withGame g' touchedAndStarted) ∧
     generation g' = generation (game touchedAndStarted) + 1 ∧
     population g' = liveCount (grid g') ∧
     ∀ x y, get (grid g') x y =
       number (if decide (ruleAlive (bornRules (game touchedAndStarted))
                            (surviveRules (game touchedAndStarted))
                            (grid (game touchedAndStarted)) x y)
               then 1 else 0)).
Proof.
  apply (reachable_frame_follows_rule touchedAndStarted true).
  eapply rtc_l; [apply (ui_mouseDown (mkPointer None (3, 4)))|].
  apply rtc_once. apply (ui_start false). reflexivity.
Defined.

(** X22: on a cell that reads 0 or 1, a second click undoes the first:
    after press, release and press on the same cell every cell of the
    plane reads what it read before. *)
Theorem second_click_restores_cell e a :
  wf_grid (grid (game a)) → button e ≠ Some 1 → button e ≠ Some 2 →
  get (grid (game a)) (cell e).1 (cell e).2 = number 0 ∨
  get (grid (game a)) (cell e).1 (cell e).2 = number 1 →
  ∀ x y,
    get (grid (game (handleMouseDown e (handleMouseUp (handleMouseDown e a))))) x y
      = get (grid (game a)) x y.
Proof.
  intros Hwf Hmiddle Hright Hbit x y. unfold handleMouseDown, handleMouseUp.
  rewrite !bool_decide_eq_false_2 by tauto.
  destruct (cell e) as [cx cy]. simpl in *.
  rewrite get_set_eq by done.
  rewrite !get_set by auto with grid.
  case_decide as Heq; [|done]. injection Heq as <- <-.
  by destruct Hbit as [Hbit|Hbit]; rewrite Hbit.
Qed.

Lemma second_click_restores_cell_witness :
  get (grid (game touchedAndStarted)) 3 4 = number 1 ∧
  ∀ x y,
    get (grid (game (handleMouseDown (mkPointer None (3, 4))
                       (handleMouseUp (handleMouseDown (mkPointer None (3, 4))
                                         touchedAndStarted))))) x y
      = get (grid (game touchedAndStarted)) x y.
Proof.
  split; [reflexivity|].
  apply (second_click_restores_cell (mkPointer None (3, 4)) touchedAndStarted).
  - compute_done.
  - simpl. congruence.
  - simpl. congruence.
  - right. reflexivity.
Defined.

(** X23: when [start()] returns the engine is running, a further press
    of the start button changes nothing, and after [pause()] the game is
    the same and a frame of the loop changes nothing. *)
Theorem start_runs_once due due' a a' :
  start due a = Some a' →
  isRunning a' = true ∧ start due' a' = Some a' ∧
  game (pause a') = game a' ∧ loop due' (pause a') = Some (pause a').
Proof.
  unfold start. destruct (isRunning a) eqn:Hrun.
  - intros [= <-]. by rewrite Hrun.
  - unfold loop. simpl. destruct due.
    + destruct (computeNextGen (game a)) as [g'|]; [|done].
      by intros [= <-].
    + by intros [= <-].
Qed.

Lemma start_runs_once_witness :
  isRunning touchedAndStarted = true ∧
  start true touchedAndStarted = Some touchedAndStarted ∧
  game (pause touchedAndStarted) = game touchedAndStarted ∧
  loop true (pause touchedAndStarted) = Some (pause touchedAndStarted).
Proof.
  apply (start_runs_once false true
           (handleMouseDown (mkPointer None (3, 4)) newApp) touchedAndStarted).
  reflexivity.
Defined.
